(** * The front end of the [have] compiler: lexers and type negotiation

    A shallow embedding of the Go sources

    - the scope-emitting lexer (indent stack, NEWSCOPE / ENDSCOPE),
    - the rich lexer of [lexer.go] (keywords, operators, literals),
    - the type negotiator ([IsAssignable], [Implements], [AreOrdered],
      [NegotiateExprType], [SendStmt.NegotiateTypes], ...),

    together with the properties stated about them. *)

From Stdlib Require Import ZArith String Ascii DecimalString List Sorted Bool Lia.
Import ListNotations.

Set Implicit Arguments.

(** ** Go values shared by the three components *)

Module Go.

(** A [rune] is an [int32] code point. *)
Definition rune := Z.

Definition rune_of_ascii (c : ascii) : rune := Z.of_N (N_of_ascii c).

(** [[]rune("...")] for a literal made of one-byte characters. *)
Definition runes (s : string) : list rune :=
  map rune_of_ascii (list_ascii_of_string s).

Definition newline : rune := 10%Z.

(** [string(rs)] for a rune slice: every rune that is not a valid code
    point is replaced by U+FFFD; the result is kept as the sequence of
    its code points. *)
Definition valid_rune (r : rune) : bool :=
  ((0 <=? r) && (r <? 55296) || (57344 <=? r) && (r <=? 1114111))%Z.

Definition go_string (rs : list rune) : list rune :=
  map (fun r => if valid_rune r then r else 65533%Z) rs.

Fixpoint runes_eqb (a b : list rune) : bool :=
  match a, b with
  | [], [] => true
  | x :: a', y :: b' => (x =? y)%Z && runes_eqb a' b'
  | _, _ => false
  end.

(** The tables of package [unicode] the lexers consult.  They are not
    part of the repository; the lexers are parametrised by them. *)
Record Unicode := {
  IsSpace : rune -> bool;
  IsLetter : rune -> bool;
  IsNumber : rune -> bool
}.

Definition between (lo hi r : rune) : bool := ((lo <=? r) && (r <=? hi))%Z.

(** The tables of package [unicode] on Latin-1 (U+0000..U+00FF), which is
    where Go itself special-cases them; nothing beyond U+00FF is
    classified here. *)
Definition latin1 : Unicode := {|
  IsSpace r :=
    (between 9 13 r || (r =? 32) || (r =? 133) || (r =? 160))%Z;
  IsLetter r :=
    (between 65 90 r || between 97 122 r || (r =? 170) || (r =? 181)
     || (r =? 186) || between 192 214 r || between 216 246 r
     || between 248 255 r)%Z;
  IsNumber r :=
    (between 48 57 r || (r =? 178) || (r =? 179) || (r =? 185)
     || between 188 190 r)%Z
|}.

(** A Go call either returns or panics. *)
Inductive outcome (A : Type) : Type :=
| Returns (a : A)
| Panics (msg : string).
Arguments Panics {A} msg.

Definition bind {A B : Type} (x : outcome A) (f : A -> outcome B) : outcome B :=
  match x with
  | Returns a => f a
  | Panics msg => Panics msg
  end.

End Go.

(** ** The scope-emitting lexer *)

Module ScopeLexer.
Import Go.

Record Token := mkToken { Type_ : string; Value : option (list rune) }.

Definition TOKEN_EOF : string := "eof".
Definition TOKEN_NEWSCOPE : string := "newscope".
Definition TOKEN_ENDSCOPE : string := "endscope".
Definition TOKEN_FOR : string := "for".
Definition TOKEN_WORD : string := "word".

(** [indentsStack] is kept with its top (the last element of the Go
    slice) at the head of the list; [queue] is in emission order. *)
Record Lexer := mkLexer {
  buf : list rune;
  indentsStack : list Z;
  queue : list Token
}.

Definition NewLexer (b : list rune) : Lexer := mkLexer b [] [].

(** What one call of [Next] hands back: a token or an error. *)
Inductive result := Tok (t : Token) | Err (msg : string).

Definition endscope : Token := mkToken TOKEN_ENDSCOPE None.

Section WithTables.
Variable U : Unicode.

Definition white (c : rune) : bool := IsSpace U c && negb (c =? newline)%Z.

(** [skipWhiteChars]: drops the leading non-newline whitespace and
    returns how many characters were dropped. *)
Fixpoint skipWhiteRunes (b : list rune) : Z * list rune :=
  match b with
  | c :: b' =>
      if white c
      then let (n, r) := skipWhiteRunes b' in ((n + 1)%Z, r)
      else (0%Z, b)
  | [] => (0%Z, [])
  end.

Definition skipWhiteChars (l : Lexer) : Z * Lexer :=
  let (n, r) := skipWhiteRunes (buf l) in
  (n, mkLexer r (indentsStack l) (queue l)).

(** [scanWord]: the source tests [IsLetter] twice. *)
Fixpoint scanWordRunes (b : list rune) : list rune * list rune :=
  match b with
  | c :: b' =>
      if IsLetter U c || IsLetter U c
      then let (w, r) := scanWordRunes b' in (c :: w, r)
      else ([], b)
  | [] => ([], [])
  end.

Definition scanWord (l : Lexer) : list rune * Lexer :=
  let (w, r) := scanWordRunes (buf l) in
  (w, mkLexer r (indentsStack l) (queue l)).

Definition skip (l : Lexer) : Lexer :=
  mkLexer (tl (buf l)) (indentsStack l) (queue l).

Definition isEnd (l : Lexer) : bool :=
  match buf l with [] => true | _ => false end.

(** The dedent loop: pops every entry strictly greater than [indent],
    queueing one ENDSCOPE per pop. *)
Fixpoint popIndents (indent : Z) (st : list Z) (q : list Token)
  : list Z * list Token :=
  match st with
  | top :: st' =>
      if (top >? indent)%Z then popIndents indent st' (q ++ [endscope])
      else (st, q)
  | [] => ([], q)
  end.

(** [Next].  The Go method calls itself; [fuel] bounds the depth of
    these calls and [None] means it was too small (see [NextF_enough]). *)
Fixpoint NextF (fuel : nat) (l : Lexer) : option (result * Lexer) :=
  match fuel with
  | O => None
  | S fuel' =>
      match queue l with
      | t :: q => Some (Tok t, mkLexer (buf l) (indentsStack l) q)
      | [] =>
          match buf l with
          | [] =>
              let l' :=
                mkLexer (buf l) []
                  (queue l ++ map (fun _ => endscope) (indentsStack l)) in
              match queue l' with
              | [] => Some (Tok (mkToken TOKEN_EOF None), l')
              | _ => NextF fuel' l'
              end
          | ch :: _ =>
              if (ch =? newline)%Z then
                let (indent, l2) := skipWhiteChars (skip l) in
                match buf l2 with
                | [] => NextF fuel' l2
                | c :: _ =>
                    if (c =? newline)%Z then NextF fuel' l2
                    else
                      match indentsStack l2 with
                      | [] =>
                          Some (Tok (mkToken TOKEN_NEWSCOPE None),
                                mkLexer (buf l2) [indent] (queue l2))
                      | top :: _ =>
                          if (indent >? top)%Z then
                            Some (Tok (mkToken TOKEN_NEWSCOPE None),
                                  mkLexer (buf l2)
                                    (indent :: indentsStack l2) (queue l2))
                          else
                            let (st, q) :=
                              popIndents indent (indentsStack l2) (queue l2) in
                            let l3 := mkLexer (buf l2) st q in
                            match st with
                            | top' :: _ =>
                                if negb (top' =? indent)%Z
                                then Some (Err "Bad indent", l3)
                                else NextF fuel' l3
                            | [] => NextF fuel' l3
                            end
                      end
                end
              else if IsSpace U ch then NextF fuel' (snd (skipWhiteChars l))
              else if IsLetter U ch then
                let (word, l1) := scanWord l in
                let s := go_string word in
                if runes_eqb s (runes "for")
                then Some (Tok (mkToken TOKEN_FOR None), l1)
                else Some (Tok (mkToken TOKEN_WORD (Some s)), l1)
              else Some (Err "Don't know what to do", l)
          end
      end
  end.

(** Enough fuel for any state: every nested call but the last two has
    consumed at least one character. *)
Definition Next (l : Lexer) : option (result * Lexer) :=
  NextF (length (buf l) + 2) l.

(** The caller's loop: pull tokens until the end-of-input token or the
    first error. *)
Fixpoint TokensF (fuel : nat) (l : Lexer) : option (list Token * option string) :=
  match fuel with
  | O => None
  | S fuel' =>
      match Next l with
      | None => None
      | Some (Err e, _) => Some ([], Some e)
      | Some (Tok t, l') =>
          if String.eqb (Type_ t) TOKEN_EOF then Some ([t], None)
          else
            match TokensF fuel' l' with
            | Some (ts, e) => Some (t :: ts, e)
            | None => None
            end
      end
  end.

Definition weight (l : Lexer) : nat :=
  2 * length (buf l) + length (indentsStack l) + length (queue l) + 1.

Definition Tokens (b : list rune) : option (list Token * option string) :=
  TokensF (weight (NewLexer b)) (NewLexer b).

Definition countType (ty : string) (ts : list Token) : nat :=
  length (filter (fun t => String.eqb (Type_ t) ty) ts).

End WithTables.

End ScopeLexer.

(** ** The rich lexer of [lexer.go] *)

Module RichLexer.
Import Go.
Local Open Scope string_scope.

Notation "x <- c1 ;; c2" := (bind c1 (fun x => c2))
  (at level 61, c1 at next level, right associativity).

Inductive TokenType :=
| TOKEN_EOF | TOKEN_INDENT | TOKEN_FOR | TOKEN_WORD | TOKEN_ASSIGN
| TOKEN_EQUALS | TOKEN_NEQUALS | TOKEN_GT | TOKEN_LT | TOKEN_EQ_LT
| TOKEN_EQ_GT | TOKEN_NEGATE | TOKEN_NUM | TOKEN_STR | TOKEN_DOT
| TOKEN_LPARENTH | TOKEN_RPARENTH | TOKEN_LBRACKET | TOKEN_RBRACKET
| TOKEN_LBRACE | TOKEN_RBRACE | TOKEN_PLUS | TOKEN_PLUS_ASSIGN
| TOKEN_INCREMENT | TOKEN_MINUS | TOKEN_MINUS_ASSIGN | TOKEN_DECREMENT
| TOKEN_VAR | TOKEN_IF | TOKEN_ELSE | TOKEN_ELIF | TOKEN_SWITCH
| TOKEN_CASE | TOKEN_RETURN | TOKEN_TRUE | TOKEN_FALSE | TOKEN_STRUCT
| TOKEN_MAP | TOKEN_FUNC | TOKEN_TYPE | TOKEN_IN | TOKEN_PASS
| TOKEN_PACKAGE | TOKEN_BREAK | TOKEN_CONTINUE | TOKEN_FALLTHROUGH
| TOKEN_GOTO | TOKEN_INTERFACE | TOKEN_NIL | TOKEN_MUL | TOKEN_DIV
| TOKEN_MUL_ASSIGN | TOKEN_DIV_ASSIGN | TOKEN_SHL | TOKEN_SHR
| TOKEN_SEND | TOKEN_COMMA | TOKEN_COLON | TOKEN_SEMICOLON | TOKEN_AMP
| TOKEN_PIPE | TOKEN_PERCENT | TOKEN_AND | TOKEN_OR.

(** [Value] is [nil] or a string (kept as its code points). *)
Record Token := mkToken {
  Type_ : TokenType;
  Offset : Z;
  Value : option (list rune)
}.

(** [buf] is a Go slice: [spare] holds what its backing array has between
    [len(buf)] and [cap(buf)].  [indentsStack] is never touched by this
    lexer. *)
Record Lexer := mkLexer {
  buf : list rune;
  spare : list rune;
  indentsStack : list Z;
  tokenIndent : option Token;
  skipped : Z;
  curTokenPos : Z
}.

(** [NewLexer(buf)] for a slice with the given elements and spare
    capacity. *)
Definition NewLexer (b sp : list rune) : Lexer := mkLexer b sp [] None 0 0.

(** Tokens of package [go/token] that [fromGoToken] tells apart. *)
Inductive gotoken := INT | FLOAT | IMAG | OTHER (name : string).

(** One [Scan] of package [go/scanner] on the given bytes: the token, its
    literal and the last error handed to the error handler.  The scanner
    is not part of the repository. *)
Definition GoScanner := list Z -> gotoken * list Z * option string.

Inductive error :=
| ErrStringStart     (* String literal has to start with a double quote *)
| ErrStringEscape    (* Unexpected file end - middle of a string literal *)
| ErrStringOpen      (* Unterminated string literal *)
| ErrScanner (msg : string)    (* Scanner error: <pos>, <msg> *)
| ErrGoToken (tok : gotoken)   (* Unexpected Go token: <tok> *)
| ErrUnknown (ch : rune).      (* Don't know what to do, '<ch>' *)

Inductive result := Tok (t : Token) | Err (e : error).

Definition setBuf (b : list rune) (n : Z) (l : Lexer) : Lexer :=
  mkLexer b (spare l) (indentsStack l) (tokenIndent l) (skipped l + n) (curTokenPos l).

(** [skipBy(n)]: [l.buf[n:]] panics when [n] exceeds [len(l.buf)]. *)
Definition skipBy (n : nat) (l : Lexer) : outcome Lexer :=
  if (n <=? length (buf l))%nat
  then Returns (setBuf (skipn n (buf l)) (Z.of_nat n) l)
  else Panics "slice bounds out of range".

Definition skip (l : Lexer) : outcome Lexer := skipBy 1 l.

(** [l.buf[:n]]: legal up to the capacity of the slice. *)
Definition sliceTo (n : nat) (l : Lexer) : outcome (list rune) :=
  if (n <=? length (buf l) + length (spare l))%nat
  then Returns (firstn n (buf l ++ spare l)%list)
  else Panics "slice bounds out of range".

Definition isEnd (l : Lexer) : bool :=
  match buf l with [] => true | _ => false end.

Fixpoint checkAlt (alts : list (list rune)) (l : Lexer)
  : outcome (list rune * bool * Lexer) :=
  match alts with
  | [] => Returns ([], false, l)
  | alt :: alts' =>
      pre <- sliceTo (length alt) l ;;
      if runes_eqb (go_string pre) alt
      then l' <- skipBy (length alt) l ;; Returns (alt, true, l')
      else checkAlt alts' l
  end.

(** The loop of [loadEscapedString]: the index of the closing quote. *)
Fixpoint findQuote (b : list rune) (i : nat) : nat + error :=
  match b with
  | [] => inr ErrStringOpen
  | c :: b' =>
      if (c =? 92)%Z then
        match b' with
        | [] => inr ErrStringEscape
        | _ :: b'' => findQuote b'' (i + 2)
        end
      else if (c =? 34)%Z then inl i
      else findQuote b' (i + 1)
  end.

Definition loadEscapedString (l : Lexer)
  : outcome ((list rune + error) * Lexer) :=
  match buf l with
  | c :: _ =>
      if (c =? 34)%Z then
        l1 <- skip l ;;
        match findQuote (buf l1) 0 with
        | inl i =>
            pre <- sliceTo i l1 ;;
            l2 <- skipBy (i + 1) l1 ;;
            Returns (inl (go_string pre), l2)
        | inr e => Returns (inr e, l1)
        end
      else Returns (inr ErrStringStart, l)
  | [] => Returns (inr ErrStringStart, l)
  end.

Definition newToken (l : Lexer) (typ : TokenType) (val : option (list rune)) : Token :=
  mkToken typ (curTokenPos l) val.

Definition retNewToken (l : Lexer) (typ : TokenType) (val : option (list rune))
  : outcome (result * Lexer) :=
  Returns (Tok (newToken l typ val), l).

Definition fromGoToken (l : Lexer) (token : gotoken) (lit : list Z)
  : outcome (result * Lexer) :=
  match token with
  | INT | FLOAT | IMAG => retNewToken l TOKEN_NUM (Some lit)
  | OTHER _ => Returns (Err (ErrGoToken token), l)
  end.

(** The inner switch of the identifier case. *)
Definition keywordCase (s : list rune) : option TokenType :=
  if runes_eqb s (runes "for") then Some TOKEN_FOR
  else if runes_eqb s (runes "pass") then Some TOKEN_PASS
  else if runes_eqb s (runes "package") then Some TOKEN_PACKAGE
  else if runes_eqb s (runes "var") then Some TOKEN_VAR
  else if runes_eqb s (runes "if") then Some TOKEN_IF
  else if runes_eqb s (runes "else") then Some TOKEN_ELSE
  else if runes_eqb s (runes "elif") then Some TOKEN_ELIF
  else if runes_eqb s (runes "switch") then Some TOKEN_SWITCH
  else if runes_eqb s (runes "case") then Some TOKEN_CASE
  else if runes_eqb s (runes "return") || runes_eqb s (runes "ret")
    then Some TOKEN_RETURN
  else if runes_eqb s (runes "true") then Some TOKEN_TRUE
  else if runes_eqb s (runes "false") then Some TOKEN_FALSE
  else if runes_eqb s (runes "struct") then Some TOKEN_STRUCT
  else if runes_eqb s (runes "interface") then Some TOKEN_INTERFACE
  else if runes_eqb s (runes "map") then Some TOKEN_MAP
  else if runes_eqb s (runes "func") then Some TOKEN_FUNC
  else if runes_eqb s (runes "type") then Some TOKEN_TYPE
  else if runes_eqb s (runes "break") then Some TOKEN_BREAK
  else if runes_eqb s (runes "continue") then Some TOKEN_CONTINUE
  else if runes_eqb s (runes "fallthrough") then Some TOKEN_FALLTHROUGH
  else if runes_eqb s (runes "goto") then Some TOKEN_GOTO
  else if runes_eqb s (runes "nil") then Some TOKEN_NIL
  else None.

Fixpoint altCase (cases : list (string * TokenType)) (alt : list rune)
  : option TokenType :=
  match cases with
  | [] => None
  | (a, ty) :: cases' =>
      if runes_eqb alt (runes a) then Some ty else altCase cases' alt
  end.

(** An operator case: [alt, _ := l.checkAlt(alts...)], then the switch on
    [alt]; when no case of that switch is taken, control reaches the
    error at the end of [Next]. *)
Definition operatorCase (ch : rune) (alts : list string)
    (cases : list (string * TokenType)) (l : Lexer) : outcome (result * Lexer) :=
  r <- checkAlt (map runes alts) l ;;
  let '(alt, _, l') := r in
  match altCase cases alt with
  | Some ty => retNewToken l' ty (Some alt)
  | None => Returns (Err (ErrUnknown ch), l')
  end.

(** A one-character token: [l.skip()], then the token. *)
Definition punctCase (ty : TokenType) (val : option (list rune)) (l : Lexer)
  : outcome (result * Lexer) :=
  l' <- skip l ;; retNewToken l' ty val.

Definition isChar (c : string) (ch : rune) : bool := runes_eqb [ch] (runes c).

Section WithTables.
Variable U : Unicode.
Variable Scan : GoScanner.

Fixpoint whitePrefix (b : list rune) : nat :=
  match b with
  | c :: b' =>
      if IsSpace U c && negb (c =? newline)%Z then S (whitePrefix b') else O
  | [] => O
  end.

Definition skipWhiteChars (l : Lexer) : outcome (list rune * Lexer) :=
  let i := whitePrefix (buf l) in
  whitespace <- sliceTo i l ;;
  l' <- skipBy i l ;;
  Returns (whitespace, l').

Fixpoint wordPrefix (b : list rune) : nat :=
  match b with
  | c :: b' => if IsLetter U c || IsNumber U c then S (wordPrefix b') else O
  | [] => O
  end.

Definition scanWord (l : Lexer) : outcome (list rune * Lexer) :=
  let i := wordPrefix (buf l) in
  result <- sliceTo i l ;;
  l' <- skipBy i l ;;
  Returns (result, l').

Definition scanGoToken (l : Lexer)
  : outcome (gotoken * list Z * option string * Lexer) :=
  let code := map (fun r => (r mod 256)%Z) (buf l) in
  let '(tok, lit, err) := Scan code in
  l' <- skipBy (length lit) l ;;
  Returns (tok, lit, err, l').

(** [Next]; [fuel] bounds the depth of its calls to itself, [None]
    means that it was too small. *)
Fixpoint NextF (fuel : nat) (l0 : Lexer) : option (outcome (result * Lexer)) :=
  match fuel with
  | O => None
  | S fuel' =>
      let l := mkLexer (buf l0) (spare l0) (indentsStack l0) (tokenIndent l0)
                 (skipped l0) (skipped l0) in
      let pending :=
        match buf l with
        | [] => tokenIndent l
        | c :: _ => if negb (c =? newline)%Z then tokenIndent l else None
        end in
      match pending with
      | Some t =>
          Some (Returns (Tok t,
            mkLexer (buf l) (spare l) (indentsStack l) None (skipped l)
              (curTokenPos l)))
      | None =>
          match buf l with
          | [] => Some (retNewToken l TOKEN_EOF None)
          | ch :: _ =>
              if (ch =? newline)%Z then
                match
                  (l1 <- skip l ;;
                   r <- skipWhiteChars l1 ;;
                   let '(ws, l2) := r in
                   Returns
                     (mkLexer (buf l2) (spare l2) (indentsStack l2)
                        (Some (newToken l2 TOKEN_INDENT (Some (go_string ws))))
                        (skipped l2) (curTokenPos l2)))
                with
                | Returns l3 => NextF fuel' l3
                | Panics msg => Some (Panics msg)
                end
              else if IsSpace U ch then
                match skipWhiteChars l with
                | Returns (_, l1) => NextF fuel' l1
                | Panics msg => Some (Panics msg)
                end
              else if IsLetter U ch then
                Some (r <- scanWord l ;;
                      let '(word, l1) := r in
                      let s := go_string word in
                      match keywordCase s with
                      | Some ty => retNewToken l1 ty None
                      | None => retNewToken l1 TOKEN_WORD (Some s)
                      end)
              else if isChar "=" ch then
                Some (operatorCase ch ["=="; "="]
                        [("=", TOKEN_ASSIGN); ("==", TOKEN_EQUALS)] l)
              else if isChar "!" ch then
                Some (operatorCase ch ["!="; "!"]
                        [("!=", TOKEN_NEQUALS); ("!", TOKEN_NEGATE)] l)
              else if isChar "+" ch then
                Some (operatorCase ch ["++"; "+="; "+"]
                        [("+", TOKEN_PLUS); ("+=", TOKEN_PLUS_ASSIGN);
                         ("++", TOKEN_INCREMENT)] l)
              else if isChar "-" ch then
                Some (operatorCase ch ["--"; "-="; "-"]
                        [("-", TOKEN_MINUS); ("-=", TOKEN_MINUS_ASSIGN);
                         ("--", TOKEN_DECREMENT)] l)
              else if isChar "<" ch then
                Some (operatorCase ch ["<<"; "<-"; "<="; "<"]
                        [("<", TOKEN_LT); ("<-", TOKEN_SEND);
                         ("<<", TOKEN_SHL); ("<=", TOKEN_EQ_LT)] l)
              else if isChar ">" ch then
                Some (operatorCase ch [">>"; ">="; ">"]
                        [(">", TOKEN_GT); (">>", TOKEN_SHR);
                         (">=", TOKEN_EQ_GT)] l)
              else if IsNumber U ch then
                Some (r <- scanGoToken l ;;
                      let '(gotok, lit, err, l1) := r in
                      match err with
                      | Some msg => Returns (Err (ErrScanner msg), l1)
                      | None => fromGoToken l1 gotok lit
                      end)
              else if (ch =? 34)%Z then
                Some (r <- loadEscapedString l ;;
                      let '(str, l1) := r in
                      match str with
                      | inr e => Returns (Err e, l1)
                      | inl s => retNewToken l1 TOKEN_STR (Some s)
                      end)
              else if isChar "(" ch then Some (punctCase TOKEN_LPARENTH None l)
              else if isChar ")" ch then Some (punctCase TOKEN_RPARENTH None l)
              else if isChar "[" ch then Some (punctCase TOKEN_LBRACKET None l)
              else if isChar "]" ch then Some (punctCase TOKEN_RBRACKET None l)
              else if isChar "{" ch then Some (punctCase TOKEN_LBRACE None l)
              else if isChar "}" ch then Some (punctCase TOKEN_RBRACE None l)
              else if isChar "." ch then Some (punctCase TOKEN_DOT None l)
              else if isChar "*" ch then
                Some (operatorCase ch ["*="; "*"]
                        [("*", TOKEN_MUL); ("*=", TOKEN_MUL_ASSIGN)] l)
              else if isChar "/" ch then
                Some (operatorCase ch ["/="; "/"]
                        [("/", TOKEN_DIV); ("/=", TOKEN_DIV_ASSIGN)] l)
              else if isChar "," ch then Some (punctCase TOKEN_COMMA None l)
              else if isChar ";" ch then Some (punctCase TOKEN_SEMICOLON None l)
              else if isChar ":" ch then Some (punctCase TOKEN_COLON None l)
              else if isChar "%" ch then
                Some (punctCase TOKEN_PERCENT (Some (runes "%")) l)
              else if isChar "&" ch then
                Some (operatorCase ch ["&&"; "&"]
                        [("&&", TOKEN_AND); ("&", TOKEN_AMP)] l)
              else if isChar "|" ch then
                Some (operatorCase ch ["||"; "|"]
                        [("||", TOKEN_OR); ("|", TOKEN_PIPE)] l)
              else Some (Returns (Err (ErrUnknown ch), l))
          end
      end
  end.

(** Every nested call has consumed at least one character. *)
Definition Next (l : Lexer) : option (outcome (result * Lexer)) :=
  NextF (length (buf l) + 1) l.

End WithTables.

(** The keywords as the specification lists them (section 3.1), each with
    the token kind of that name. *)
Definition spec_keywords : list (string * TokenType) :=
  [("for", TOKEN_FOR); ("if", TOKEN_IF); ("else", TOKEN_ELSE);
   ("elif", TOKEN_ELIF); ("switch", TOKEN_SWITCH); ("case", TOKEN_CASE);
   ("return", TOKEN_RETURN); ("true", TOKEN_TRUE); ("false", TOKEN_FALSE);
   ("struct", TOKEN_STRUCT); ("interface", TOKEN_INTERFACE);
   ("map", TOKEN_MAP); ("func", TOKEN_FUNC); ("type", TOKEN_TYPE);
   ("var", TOKEN_VAR); ("pass", TOKEN_PASS); ("package", TOKEN_PACKAGE);
   ("break", TOKEN_BREAK); ("continue", TOKEN_CONTINUE);
   ("fallthrough", TOKEN_FALLTHROUGH); ("goto", TOKEN_GOTO);
   ("nil", TOKEN_NIL); ("in", TOKEN_IN)].

(** What the specification has an identifier run become: the keyword
    token when the run is listed, a WORD token carrying the text
    otherwise. *)
Definition spec_token (s : list rune) : TokenType * option (list rune) :=
  match altCase spec_keywords s with
  | Some ty => (ty, None)
  | None => (TOKEN_WORD, Some s)
  end.

(** A stand-in for [go/scanner] on the decimal integers: the longest run
    of ASCII digits is an [INT]; anything else is reported as another
    token with an empty literal. *)
Fixpoint digitsPrefix (code : list Z) : list Z :=
  match code with
  | c :: code' => if between 48%Z 57%Z c then c :: digitsPrefix code' else []
  | [] => []
  end.

Definition decimalScanner : GoScanner := fun code =>
  match digitsPrefix code with
  | [] => (OTHER "ILLEGAL", [], None)
  | lit => (INT, lit, None)
  end.

End RichLexer.

(** ** The type model and the type negotiator *)

Module Negotiator.
Import Go.
Local Open Scope string_scope.

Notation "x <- c1 ;; c2" := (bind c1 (fun x => c2))
  (at level 61, c1 at next level, right associativity).

Inductive Kind :=
| KIND_UNKNOWN | KIND_SIMPLE | KIND_POINTER | KIND_SLICE | KIND_ARRAY
| KIND_MAP | KIND_CHAN | KIND_FUNC | KIND_STRUCT | KIND_INTERFACE
| KIND_TUPLE | KIND_CUSTOM.

(** The ids of the simple types the negotiator names; [SIMPLE_TYPE_OTHER]
    stands for the remaining primitives. *)
Inductive SimpleID :=
| SIMPLE_TYPE_BOOL | SIMPLE_TYPE_INT | SIMPLE_TYPE_FLOAT64
| SIMPLE_TYPE_COMPLEX128 | SIMPLE_TYPE_STRING | SIMPLE_TYPE_BYTE
| SIMPLE_TYPE_RUNE | SIMPLE_TYPE_OTHER (n : nat).

Inductive ChanDir := CHAN_DIR_BI | CHAN_DIR_SEND | CHAN_DIR_RECEIVE.

(** Modelled from the spec: the type declarations of the repository (the
    closed set of type variants of section 3.2, with the fields the
    negotiator reads; a named type carries its declaration: name, aliased
    type and own method set; a method carries its name, its signature and
    whether its receiver is a pointer).  Method sets are Go maps, kept as
    association lists. *)
#[local] Unset Elimination Schemes.
Inductive Ty :=
| UnknownType
| SimpleType (ID : SimpleID)
| PointerType (To : Ty)
| SliceType (Of : Ty)
| ArrayType (Of : Ty) (Size : Z)
| MapType (By Of : Ty)
| ChanType (Of : Ty) (Dir : ChanDir)
| FuncType (Args Results : list Ty)
| StructType (Members : list (string * Ty)) (Methods : list (string * FuncDecl))
| IfaceType (Methods : list (string * FuncDecl))
| TupleType (Members : list Ty)
| CustomType (Decl : TypeDecl)
with FuncDecl :=
| mkFuncDecl (name : string) (typ : Ty) (PtrReceiver : bool)
with TypeDecl :=
| mkTypeDecl (name : string) (AliasedType : Ty) (Methods : list (string * FuncDecl)).
#[local] Set Elimination Schemes.

Definition FuncDecl_name (m : FuncDecl) : string := let 'mkFuncDecl n _ _ := m in n.
Definition FuncDecl_typ (m : FuncDecl) : Ty := let 'mkFuncDecl _ t _ := m in t.
Definition FuncDecl_PtrReceiver (m : FuncDecl) : bool := let 'mkFuncDecl _ _ p := m in p.
Definition TypeDecl_name (d : TypeDecl) : string := let 'mkTypeDecl n _ _ := d in n.
Definition TypeDecl_AliasedType (d : TypeDecl) : Ty := let 'mkTypeDecl _ t _ := d in t.
Definition TypeDecl_Methods (d : TypeDecl) : list (string * FuncDecl) :=
  let 'mkTypeDecl _ _ ms := d in ms.

(** Modelled from the spec: [Kind()] of every type variant. *)
Definition KindOf (t : Ty) : Kind :=
  match t with
  | UnknownType => KIND_UNKNOWN
  | SimpleType _ => KIND_SIMPLE
  | PointerType _ => KIND_POINTER
  | SliceType _ => KIND_SLICE
  | ArrayType _ _ => KIND_ARRAY
  | MapType _ _ => KIND_MAP
  | ChanType _ _ => KIND_CHAN
  | FuncType _ _ => KIND_FUNC
  | StructType _ _ => KIND_STRUCT
  | IfaceType _ => KIND_INTERFACE
  | TupleType _ => KIND_TUPLE
  | CustomType _ => KIND_CUSTOM
  end.

Definition Kind_eqb (a b : Kind) : bool :=
  match a, b with
  | KIND_UNKNOWN, KIND_UNKNOWN | KIND_SIMPLE, KIND_SIMPLE
  | KIND_POINTER, KIND_POINTER | KIND_SLICE, KIND_SLICE
  | KIND_ARRAY, KIND_ARRAY | KIND_MAP, KIND_MAP | KIND_CHAN, KIND_CHAN
  | KIND_FUNC, KIND_FUNC | KIND_STRUCT, KIND_STRUCT
  | KIND_INTERFACE, KIND_INTERFACE | KIND_TUPLE, KIND_TUPLE
  | KIND_CUSTOM, KIND_CUSTOM => true
  | _, _ => false
  end.

Definition SimpleID_eqb (a b : SimpleID) : bool :=
  match a, b with
  | SIMPLE_TYPE_BOOL, SIMPLE_TYPE_BOOL | SIMPLE_TYPE_INT, SIMPLE_TYPE_INT
  | SIMPLE_TYPE_FLOAT64, SIMPLE_TYPE_FLOAT64
  | SIMPLE_TYPE_COMPLEX128, SIMPLE_TYPE_COMPLEX128
  | SIMPLE_TYPE_STRING, SIMPLE_TYPE_STRING
  | SIMPLE_TYPE_BYTE, SIMPLE_TYPE_BYTE | SIMPLE_TYPE_RUNE, SIMPLE_TYPE_RUNE => true
  | SIMPLE_TYPE_OTHER n, SIMPLE_TYPE_OTHER m => Nat.eqb n m
  | _, _ => false
  end.

(** Modelled from the spec: [Known()] is true unless the type is UNKNOWN. *)
Definition Known (t : Ty) : bool :=
  match t with UnknownType => false | _ => true end.

(** Modelled from the spec: [CustomType.RootType()], the root of the
    aliased type, recursively. *)
Fixpoint CustomRootType (t : Ty) : Ty :=
  match t with
  | CustomType (mkTypeDecl _ aliased _) => CustomRootType aliased
  | _ => t
  end.

Definition nonilTyp (t : option Ty) : Ty :=
  match t with None => UnknownType | Some t => t end.

Definition RootType (t : Ty) : Ty :=
  if Kind_eqb (KindOf t) KIND_CUSTOM then CustomRootType t else t.

Definition UnderlyingType (t : Ty) : Ty :=
  match t with
  | CustomType Decl => TypeDecl_AliasedType Decl
  | _ => t
  end.

Definition IsNamed (t : Ty) : bool :=
  Kind_eqb (KindOf t) KIND_CUSTOM || Kind_eqb (KindOf t) KIND_SIMPLE.

Definition IsUnnamed (t : Ty) : bool := negb (IsNamed t).

Definition IsInterface (t : Ty) : bool :=
  Kind_eqb (KindOf (RootType t)) KIND_INTERFACE.

(** A Go [error]: [None] is [nil]. *)
Definition error := option string.

(** The part of the type model that is not in the sources and that the
    specification leaves open: the canonical string of a type and the
    numeric predicates consulted by the basic literal. *)
Record TypeModel := {
  StringOf : Ty -> string;
  IsTypeNumeric : Ty -> bool;
  IsTypeFloatKind : Ty -> bool;
  IsTypeComplexType : Ty -> bool
}.

Section WithModel.
Variable M : TypeModel.

(** [Implements]: the search through the methods of the value for one
    required method. *)
Definition methodFound (ptr : bool) (valueMethods : list (string * FuncDecl))
    (imet : FuncDecl) : bool :=
  existsb
    (fun met =>
       String.eqb (FuncDecl_name met) (FuncDecl_name imet)
       && Bool.eqb (FuncDecl_PtrReceiver met) ptr
       && String.eqb (StringOf M (FuncDecl_typ met))
            (StringOf M (FuncDecl_typ imet)))
    (map snd valueMethods).

Definition Implements (iface value : Ty) : outcome bool :=
  match RootType iface with
  | IfaceType iMethods =>
      let '(value, ptr) :=
        match value with
        | PointerType To => (To, true)
        | _ => (value, false)
        end in
      let valueMethods :=
        match value with
        | CustomType Decl => TypeDecl_Methods Decl
        | IfaceType Methods => Methods
        | _ => []
        end in
      Returns (forallb (methodFound ptr valueMethods) (map snd iMethods))
  | _ => Panics "interface conversion: Type is not *IfaceType"
  end.

Definition IsAssignable (to what : Ty) : outcome bool :=
  if IsInterface to then Implements to what
  else if IsNamed to && IsNamed what
  then Returns (String.eqb (StringOf M to) (StringOf M what))
  else Returns (String.eqb (StringOf M (UnderlyingType to))
                  (StringOf M (UnderlyingType what))).

Definition AreComparable (t1 t2 : Ty) : outcome bool :=
  if Kind_eqb (KindOf t1) KIND_UNKNOWN || Kind_eqb (KindOf t2) KIND_UNKNOWN
  then Returns false
  else
    a <- IsAssignable t1 t2 ;;
    if negb a then Returns false
    else
      b <- IsAssignable t2 t1 ;;
      if negb b then Returns false else Returns true.

Definition AreOrdered (t1 t2 : Ty) : outcome bool :=
  c <- AreComparable t1 t2 ;;
  if negb c then Returns false
  else
    match t1, t2 with
    | SimpleType id1, SimpleType id2 =>
        if negb (SimpleID_eqb id1 id2) then Returns false
        else
          match id1 with
          | SIMPLE_TYPE_INT | SIMPLE_TYPE_STRING => Returns true
          | _ => Returns false
          end
    | _, _ => Panics "todo"
    end.

(** *** Typed expressions *)

(** The three operations of a [TypedExpr], over the state [S] of the
    syntax tree they may read and update.  A [Type] result of [None] is
    the [nil] interface value. *)
Record TypedExpr (S : Type) := {
  TypeOf : S -> outcome (option Ty);
  ApplyType : Ty -> S -> outcome (error * S);
  GuessType : S -> outcome (bool * option Ty * S)
}.

(** A method call on a [nil] type panics. *)
Definition KnownOf (t : option Ty) : outcome bool :=
  match t with
  | Some t => Returns (Known t)
  | None => Panics "invalid memory address or nil pointer dereference"
  end.

Fixpoint firstKnown (types : list (option Ty)) : outcome (option Ty) :=
  match types with
  | [] => Returns None
  | t :: types' =>
      k <- KnownOf t ;;
      if k then Returns t else firstKnown types'
  end.

Definition notAssignable (typ what : Ty) : string :=
  "Types " ++ StringOf M typ ++ " and " ++ StringOf M what ++ " are not assignable".

Section Negotiate.
Variable S : Type.

(** [NegotiateExprType(varType, value)].  The slot [*varType] is a
    cell of its own: its content is passed in and the content after
    the call is returned next to the error and the state of the
    tree. *)
Definition NegotiateExprType (value : TypedExpr S) (varType : option Ty) (s : S)
  : outcome (error * Ty * S) :=
  let varType1 := nonilTyp varType in
  vt <- TypeOf value s ;;
  typ0 <- firstKnown [Some varType1; vt] ;;
  r <- match typ0 with
       | Some typ => Returns (inl typ, s)
       | None =>
           g <- GuessType value s ;;
           let '(ok, guessedType, s1) := g in
           if negb ok then Returns (inr tt, s1)
           else
             k <- KnownOf guessedType ;;
             if negb k then Returns (inr tt, s1)
             else Returns (inl (nonilTyp guessedType), s1)
       end ;;
  match r with
  | (inr _, s1) =>
      Returns (Some "Too little information to infer types", varType1, s1)
  | (inl typ, s1) =>
      (* *varType = typ *)
      vt' <- TypeOf value s1 ;;
      k <- KnownOf vt' ;;
      if negb k then
        if IsInterface typ then
          g <- GuessType value s1 ;;
          let '(ok, guessedType, s2) := g in
          if ok then
            match guessedType with
            | None => Panics "invalid memory address or nil pointer dereference"
            | Some guessed =>
                a <- IsAssignable typ guessed ;;
                if negb a
                then Returns (Some (notAssignable typ guessed), typ, s2)
                else
                  r' <- ApplyType value guessed s2 ;;
                  Returns (fst r', typ, snd r')
            end
          else
            r' <- ApplyType value typ s2 ;;
            Returns (fst r', typ, snd r')
        else
          r' <- ApplyType value typ s1 ;;
          Returns (fst r', typ, snd r')
      else
        let own := nonilTyp vt' in
        a <- IsAssignable typ own ;;
        if negb a
        then Returns (Some (notAssignable typ own), typ, s1)
        else
          r' <- ApplyType value own s1 ;;
          Returns (fst r', typ, snd r')
  end.

(** [SendStmt.NegotiateTypes] for [Lhs <- Rhs]. *)
Definition SendStmt_NegotiateTypes (Lhs Rhs : TypedExpr S) (s : S)
  : outcome (error * S) :=
  r1 <- NegotiateExprType Lhs (Some UnknownType) s ;;
  let '(err1, ltyp, s1) := r1 in
  match err1 with
  | Some e => Returns (Some e, s1)
  | None =>
      r2 <- NegotiateExprType Rhs (Some UnknownType) s1 ;;
      let '(err2, rtyp, s2) := r2 in
      match err2 with
      | Some e => Returns (Some e, s2)
      | None =>
          match RootType ltyp with
          | ChanType Of Dir =>
              match Dir with
              | CHAN_DIR_RECEIVE => Returns (Some "Channel is receive-only", s2)
              | _ =>
                  a <- IsAssignable Of rtyp ;;
                  if negb a
                  then Returns
                         (Some "Send value has to be assignable to channel's base type", s2)
                  else Returns (None, s2)
              end
          | _ => Returns (Some "Not a chan used for sending", s2)
          end
      end
  end.
End Negotiate.

(** *** Expression nodes *)


(** The token kinds a basic literal distinguishes. *)
Inductive LitToken :=
| TOKEN_STR | TOKEN_INT | TOKEN_RUNE | TOKEN_FLOAT | TOKEN_IMAG
| TOKEN_TRUE | TOKEN_FALSE | TOKEN_OTHER.

Record BasicLit := mkBasicLit { token : LitToken; BasicLit_typ : option Ty }.

Definition isSimple (id : SimpleID) (t : Ty) : bool :=
  match t with SimpleType id' => SimpleID_eqb id' id | _ => false end.

Definition BasicLit_ApplyType (typ : Ty) (ex : BasicLit) : outcome (error * BasicLit) :=
  let actualType := RootType typ in
  if negb (Kind_eqb (KindOf actualType) KIND_SIMPLE)
  then Returns (Some ("Can't use this literal for type " ++ StringOf M typ), ex)
  else
    let tk := token ex in
    if match tk with TOKEN_STR => isSimple SIMPLE_TYPE_STRING actualType | _ => false end
       || match tk with TOKEN_INT => IsTypeNumeric M actualType | _ => false end
       || match tk with TOKEN_RUNE => IsTypeNumeric M actualType | _ => false end
       || match tk with
          | TOKEN_FLOAT => IsTypeFloatKind M actualType || IsTypeComplexType M actualType
          | _ => false
          end
       || match tk with TOKEN_IMAG => IsTypeComplexType M actualType | _ => false end
       || match tk with
          | TOKEN_TRUE | TOKEN_FALSE => isSimple SIMPLE_TYPE_BOOL actualType
          | _ => false
          end
    then Returns (None, mkBasicLit tk (Some typ))
    else Returns (Some "Can't use this literal for this type", ex).

Definition BasicLit_GuessType (ex : BasicLit) : bool * option Ty :=
  match token ex with
  | TOKEN_STR => (true, Some (SimpleType SIMPLE_TYPE_STRING))
  | TOKEN_INT => (true, Some (SimpleType SIMPLE_TYPE_INT))
  | TOKEN_FLOAT => (true, Some (SimpleType SIMPLE_TYPE_FLOAT64))
  | TOKEN_IMAG => (true, Some (SimpleType SIMPLE_TYPE_COMPLEX128))
  | TOKEN_TRUE | TOKEN_FALSE => (true, Some (SimpleType SIMPLE_TYPE_BOOL))
  | TOKEN_RUNE => (true, Some (SimpleType SIMPLE_TYPE_RUNE))
  | TOKEN_OTHER => (false, None)
  end.

Definition BasicLitExpr : TypedExpr BasicLit := {|
  TypeOf ex := Returns (Some (nonilTyp (BasicLit_typ ex)));
  ApplyType := BasicLit_ApplyType;
  GuessType ex := Returns (BasicLit_GuessType ex, ex)
|}.

(** [Ident]: the object the name is bound to ([nil], a variable with its
    type, or something that is not a variable). *)
Inductive Object := OBJECT_VAR (Type_ : option Ty) | OBJECT_TYPE.

Record Ident := mkIdent { Ident_name : string; object : option Object }.

Definition Ident_Type (ex : Ident) : option Ty :=
  match object ex with
  | Some (OBJECT_VAR t) => t
  | _ => None
  end.

Definition Ident_ApplyType (typ : Ty) (ex : Ident) : outcome (error * Ident) :=
  match object ex with
  | None => Panics "invalid memory address or nil pointer dereference"
  | Some OBJECT_TYPE =>
      Returns (Some ("Identifier " ++ Ident_name ex ++ " is not a variable"), ex)
  | Some (OBJECT_VAR None) =>
      Panics "invalid memory address or nil pointer dereference"
  | Some (OBJECT_VAR (Some vt)) =>
      a <- IsAssignable typ vt ;;
      if negb a
      then Returns
             (Some ("Identifier " ++ Ident_name ex ++ " is of type " ++ StringOf M vt
                    ++ ", can't assign type " ++ StringOf M typ ++ " to it"), ex)
      else Returns (None, ex)
  end.

Definition IdentExpr : TypedExpr Ident := {|
  TypeOf ex := Returns (Ident_Type ex);
  ApplyType := Ident_ApplyType;
  GuessType ex := Returns (false, None, ex)
|}.

(** Two expressions of one statement live in one tree: the state of
    the pair, each operation acting on its own component. *)
Definition onFst (A B : Type) (e : TypedExpr A) : TypedExpr (A * B) := {|
  TypeOf s := TypeOf e (fst s);
  ApplyType t s :=
    r <- ApplyType e t (fst s) ;; Returns (fst r, (snd r, snd s));
  GuessType s :=
    r <- GuessType e (fst s) ;;
    let '(ok, g, a) := r in Returns (ok, g, (a, snd s))
|}.

Definition onSnd (A B : Type) (e : TypedExpr B) : TypedExpr (A * B) := {|
  TypeOf s := TypeOf e (snd s);
  ApplyType t s :=
    r <- ApplyType e t (snd s) ;; Returns (fst r, (fst s, snd r));
  GuessType s :=
    r <- GuessType e (snd s) ;;
    let '(ok, g, b) := r in Returns (ok, g, (fst s, b))
|}.

End WithModel.

(** Modelled from the spec: a canonical string form, one text per
    structure, named types by their name.  The specification fixes no
    syntax; this one follows Go's. *)
Definition simpleName (id : SimpleID) : string :=
  match id with
  | SIMPLE_TYPE_BOOL => "bool"
  | SIMPLE_TYPE_INT => "int"
  | SIMPLE_TYPE_FLOAT64 => "float64"
  | SIMPLE_TYPE_COMPLEX128 => "complex128"
  | SIMPLE_TYPE_STRING => "string"
  | SIMPLE_TYPE_BYTE => "byte"
  | SIMPLE_TYPE_RUNE => "rune"
  | SIMPLE_TYPE_OTHER n => "simple#" ++ NilZero.string_of_uint (Nat.to_uint n)
  end.

Fixpoint canonical (t : Ty) : string :=
  let fix commas (ts : list Ty) : string :=
    match ts with
    | [] => ""
    | [t] => canonical t
    | t :: ts' => canonical t ++ ", " ++ commas ts'
    end in
  let fix methods (ms : list (string * FuncDecl)) : string :=
    match ms with
    | [] => ""
    | (_, mkFuncDecl n ty _) :: ms' => n ++ " " ++ canonical ty ++ "; " ++ methods ms'
    end in
  let fix members (ms : list (string * Ty)) : string :=
    match ms with
    | [] => ""
    | (n, ty) :: ms' => n ++ " " ++ canonical ty ++ "; " ++ members ms'
    end in
  match t with
  | UnknownType => "unknown"
  | SimpleType id => simpleName id
  | PointerType To => "*" ++ canonical To
  | SliceType Of => "[]" ++ canonical Of
  | ArrayType Of Size =>
      "[" ++ NilZero.string_of_int (Z.to_int Size) ++ "]" ++ canonical Of
  | MapType By Of => "map[" ++ canonical By ++ "]" ++ canonical Of
  | ChanType Of Dir =>
      match Dir with
      | CHAN_DIR_BI => "chan "
      | CHAN_DIR_SEND => "chan<- "
      | CHAN_DIR_RECEIVE => "<-chan "
      end ++ canonical Of
  | FuncType Args Results => "func(" ++ commas Args ++ ") (" ++ commas Results ++ ")"
  | StructType Members _ => "struct{" ++ members Members ++ "}"
  | IfaceType Methods => "interface{" ++ methods Methods ++ "}"
  | TupleType Members => "(" ++ commas Members ++ ")"
  | CustomType (mkTypeDecl name _ _) => name
  end.

(** Modelled from the spec: the numeric predicates on the root of a
    type (numeric: the integer, floating and complex primitives). *)
Definition specModel : TypeModel := {|
  StringOf := canonical;
  IsTypeNumeric t :=
    match RootType t with
    | SimpleType (SIMPLE_TYPE_INT | SIMPLE_TYPE_FLOAT64 | SIMPLE_TYPE_COMPLEX128
                 | SIMPLE_TYPE_BYTE | SIMPLE_TYPE_RUNE) => true
    | _ => false
    end;
  IsTypeFloatKind t :=
    match RootType t with SimpleType SIMPLE_TYPE_FLOAT64 => true | _ => false end;
  IsTypeComplexType t :=
    match RootType t with SimpleType SIMPLE_TYPE_COMPLEX128 => true | _ => false end
|}.

End Negotiator.

(** * Properties *)

Module GoFacts.
Import Go.

Lemma runes_eqb_eq (a b : list rune) : runes_eqb a b = true <-> a = b.
Proof.
  revert b; induction a as [|x a IH]; intros [|y b]; simpl;
    try (split; [discriminate | discriminate]); try tauto.
  rewrite andb_true_iff, Z.eqb_eq, IH.
  split; [intros [-> ->]; reflexivity | intros E; inversion E; auto].
Qed.

Lemma runes_eqb_refl (a : list rune) : runes_eqb a a = true.
Proof. apply runes_eqb_eq; reflexivity. Qed.

End GoFacts.

Module ScopeLexerFacts.
Import Go ScopeLexer.

(** Only ENDSCOPE tokens ever wait in the queue. *)
Definition queue_ok (l : Lexer) : Prop := Forall (eq endscope) (queue l).

(** The scopes that are open or whose closing token is still queued. *)
Definition pending (l : Lexer) : nat :=
  length (indentsStack l) + length (queue l).

Definition opens (t : Token) : nat := countType TOKEN_NEWSCOPE [t].
Definition closes (t : Token) : nat := countType TOKEN_ENDSCOPE [t].

Lemma countType_cons ty t ts :
  countType ty (t :: ts) = countType ty [t] + countType ty ts.
Proof. unfold countType; simpl; destruct (String.eqb _ _); reflexivity. Qed.

Section WithTables.
Variable U : Unicode.

Lemma skipWhiteRunes_length b :
  length (snd (skipWhiteRunes U b)) <= length b.
Proof.
  induction b as [|c b IH]; simpl; [lia|].
  destruct (white U c); simpl; [|lia].
  destruct (skipWhiteRunes U b); simpl in *; lia.
Qed.

Lemma skipWhiteRunes_app ws c rest :
  Forall (fun x => white U x = true) ws -> white U c = false ->
  skipWhiteRunes U (ws ++ c :: rest) = (Z.of_nat (length ws), c :: rest).
Proof.
  intros Hws Hc; induction Hws as [|x ws Hx _ IH].
  - simpl; rewrite Hc; reflexivity.
  - cbn [app skipWhiteRunes]; rewrite Hx, IH.
    f_equal; simpl length; lia.
Qed.

Lemma scanWordRunes_length b :
  length (snd (scanWordRunes U b)) <= length b.
Proof.
  induction b as [|c b IH]; simpl; [lia|].
  destruct (IsLetter U c); simpl; [|lia].
  destruct (scanWordRunes U b); simpl in *; lia.
Qed.

Lemma popIndents_spec indent st q st' q' :
  popIndents indent st q = (st', q') ->
  Forall (eq endscope) q ->
  Forall (eq endscope) q' /\ length st' + length q' = length st + length q.
Proof.
  revert q; induction st as [|top st IH]; simpl; intros q E Hq.
  - inversion E; subst; auto.
  - destruct (top >? indent)%Z.
    + apply IH in E.
      * rewrite length_app in E; simpl in E; split; [tauto | lia].
      * apply Forall_app; split; [assumption | repeat constructor].
    + inversion E; subst; auto.
Qed.

Lemma popIndents_app indent popped top' st' q :
  Forall (fun x => (x > indent)%Z) popped -> (top' <= indent)%Z ->
  popIndents indent (popped ++ top' :: st') q =
    (top' :: st', q ++ repeat endscope (length popped)).
Proof.
  intros Hp Ht; revert q; induction Hp as [|x popped Hx _ IH]; intros q.
  - simpl. replace (top' >? indent)%Z with false by lia.
    rewrite app_nil_r; reflexivity.
  - cbn [app popIndents length repeat].
    replace (x >? indent)%Z with true by lia.
    rewrite IH, <- app_assoc; reflexivity.
Qed.


(** What one call of [Next] does to the bookkeeping. *)
Definition step_ok (l : Lexer) (r : result) (l' : Lexer) : Prop :=
  queue_ok l' /\
  match r with
  | Tok t =>
      opens t + pending l = closes t + pending l'
      /\ (Type_ t = TOKEN_EOF -> pending l' = 0)
      /\ (Type_ t <> TOKEN_EOF -> weight l' < weight l)
  | Err _ => True
  end.

Lemma step_ok_via l m r l' :
  pending m = pending l -> weight m <= weight l ->
  step_ok m r l' -> step_ok l r l'.
Proof.
  intros Hp Hw [Hq Hr]; split; [assumption|].
  destruct r as [t|e]; [|exact I].
  destruct Hr as (H1 & H2 & H3); repeat split; auto; try lia.
  intros Hne; specialize (H3 Hne); lia.
Qed.

Lemma NextF_step n : forall l r l',
  queue_ok l -> NextF U n l = Some (r, l') -> step_ok l r l'.
Proof.
  induction n as [|n IH]; intros [b st q] r l' Hq E; [discriminate|].
  unfold queue_ok in Hq; cbn [NextF queue buf indentsStack] in E.
  destruct q as [|t q].
  - destruct b as [|ch b].
    + (* end of input *)
      cbn [app] in E.
      destruct st as [|top st].
      * inversion E; subst; unfold step_ok, queue_ok, pending, weight; cbn.
        repeat split; auto; intros H; exfalso; apply H; reflexivity.
      * apply IH in E.
        -- revert E; apply step_ok_via; unfold pending, weight; cbn;
             rewrite ?length_map; lia.
        -- unfold queue_ok; cbn. constructor; [reflexivity|].
           apply Forall_forall; intros x Hx; apply in_map_iff in Hx.
           destruct Hx as (? & <- & _); reflexivity.
    + destruct (ch =? newline)%Z.
      * (* a newline: indentation accounting *)
        unfold skipWhiteChars, skip in E; cbn [buf indentsStack queue tl] in E.
        pose proof (skipWhiteRunes_length b) as Hlen.
        destruct (skipWhiteRunes U b) as [indent b2]; cbn [snd] in Hlen.
        cbn [buf indentsStack queue] in E.
        assert (Hmid : forall m, buf m = b2 -> pending m = length st ->
                   queue_ok m -> NextF U n m = Some (r, l') ->
                   step_ok (mkLexer (ch :: b) st []) r l').
        { intros m Hb Hp Hqm Em. apply IH in Em; [|assumption].
          revert Em; apply step_ok_via; unfold pending, weight in *; cbn in *;
            rewrite ?Hb; lia. }
        destruct b2 as [|c b2'].
        { eapply Hmid; [| | |exact E];
            [reflexivity | unfold pending; cbn; lia | constructor]. }
        destruct (c =? newline)%Z.
        { eapply Hmid; [| | |exact E];
            [reflexivity | unfold pending; cbn; lia | constructor]. }
        destruct st as [|top st].
        { inversion E; subst; unfold step_ok, queue_ok, pending, weight; cbn in *.
          repeat split; auto; try discriminate; intros; lia. }
        destruct (indent >? top)%Z.
        { inversion E; subst; unfold step_ok, queue_ok, pending, weight; cbn in *.
          repeat split; auto; try discriminate; intros; lia. }
        destruct (popIndents indent (top :: st) []) as [st3 q3] eqn:Hpop.
        apply popIndents_spec in Hpop; [|constructor].
        destruct Hpop as [Hq3 Hl3]; cbn [length] in Hl3.
        destruct st3 as [|top' st3].
        { apply (Hmid (mkLexer (c :: b2') [] q3)); auto.
          unfold pending; cbn in *; lia. }
        destruct (negb (top' =? indent)%Z).
        { inversion E; subst; split; [exact Hq3 | exact I]. }
        apply (Hmid (mkLexer (c :: b2') (top' :: st3) q3)); auto.
        unfold pending; cbn in *; lia.
      * destruct (IsSpace U ch).
        -- (* other whitespace *)
           unfold skipWhiteChars in E; cbn [buf indentsStack queue] in E.
           pose proof (skipWhiteRunes_length (ch :: b)) as Hlen.
           destruct (skipWhiteRunes U (ch :: b)) as [k b2]; cbn [snd] in *.
           apply IH in E; [|constructor].
           revert E; apply step_ok_via; unfold pending, weight; cbn in *; lia.
        -- destruct (IsLetter U ch) eqn:Hletter.
           ++ (* a word *)
              unfold scanWord in E; cbn [buf indentsStack queue] in E.
              cbn [scanWordRunes] in E; rewrite Hletter in E; cbn [orb] in E.
              pose proof (scanWordRunes_length b) as Hlen.
              destruct (scanWordRunes U b) as [w b2]; cbn [snd] in Hlen.
              destruct (runes_eqb _ _); inversion E; subst;
                unfold step_ok, queue_ok, pending, weight; cbn in *;
                repeat split; auto; try discriminate; intros; lia.
           ++ inversion E; subst; split; [constructor | exact I].
  - (* a queued token *)
    inversion E; subst; inversion Hq as [|? ? Ht Hq']; subst.
    unfold step_ok, queue_ok, pending, weight; cbn.
    repeat split; auto; try discriminate; intros; lia.
Qed.


(** Termination of [Next]: the fuel a state needs. *)
Definition need (l : Lexer) : nat :=
  match queue l with [] => length (buf l) + 2 | _ => 1 end.

Lemma NextF_enough n : forall l, need l <= n -> NextF U n l <> None.
Proof.
  induction n as [|n IH]; intros [b st q] Hn.
  { unfold need in Hn; cbn in Hn; destruct q; lia. }
  unfold need in Hn; cbn [NextF queue buf indentsStack] in *.
  destruct q as [|t q]; [|discriminate].
  destruct b as [|ch b].
  - cbn [app]; destruct st as [|top st]; [discriminate|].
    apply IH; unfold need; cbn; cbn in Hn; lia.
  - cbn [length] in Hn. destruct (ch =? newline)%Z eqn:Hnl.
    + unfold skipWhiteChars, skip; cbn [buf indentsStack queue tl].
      pose proof (skipWhiteRunes_length b) as Hlen.
      destruct (skipWhiteRunes U b) as [indent b2]; cbn [snd] in Hlen.
      cbn [buf indentsStack queue].
      assert (Hmid : forall m, buf m = b2 -> NextF U n m <> None).
      { intros m Hb; apply IH; unfold need; rewrite Hb; destruct (queue m); lia. }
      destruct b2 as [|c b2']; [apply Hmid; reflexivity|].
      destruct (c =? newline)%Z; [apply Hmid; reflexivity|].
      destruct st as [|top st]; [discriminate|].
      destruct (indent >? top)%Z; [discriminate|].
      destruct (popIndents indent (top :: st) []) as [st3 q3].
      destruct st3 as [|top' st3]; [apply Hmid; reflexivity|].
      destruct (negb _); [discriminate | apply Hmid; reflexivity].
    + destruct (IsSpace U ch) eqn:Hsp.
      * unfold skipWhiteChars; cbn [buf indentsStack queue skipWhiteRunes].
        unfold white; rewrite Hsp, Hnl; cbn [andb negb].
        pose proof (skipWhiteRunes_length b) as Hlen.
        destruct (skipWhiteRunes U b) as [k b2]; cbn [snd] in *.
        apply IH; unfold need; cbn in *; lia.
      * destruct (IsLetter U ch); [|discriminate].
        destruct (scanWord U _) as [w l1]; destruct (runes_eqb _ _); discriminate.
Qed.

Lemma Next_total l : exists r l', Next U l = Some (r, l').
Proof.
  destruct (Next U l) as [[r l']|] eqn:E; [eauto|].
  exfalso; revert E; apply NextF_enough.
  unfold need; destruct (queue l); lia.
Qed.

Lemma TokensF_balanced n : forall l ts,
  queue_ok l -> TokensF U n l = Some (ts, None) ->
  countType TOKEN_NEWSCOPE ts + pending l = countType TOKEN_ENDSCOPE ts.
Proof.
  induction n as [|n IH]; intros l ts Hq E; [discriminate|].
  cbn [TokensF] in E.
  destruct (Next U l) as [[[t|e] l']|] eqn:EN; try discriminate.
  apply NextF_step in EN; [|assumption].
  destruct EN as (Hq' & Hbal & Heof & _).
  destruct (String.eqb (Type_ t) TOKEN_EOF) eqn:Et.
  - inversion E; subst ts. apply String.eqb_eq in Et.
    specialize (Heof Et); fold (opens t); fold (closes t); lia.
  - destruct (TokensF U n l') as [[ts' e']|] eqn:ET; [|discriminate].
    inversion E; subst. apply IH in ET; [|assumption].
    rewrite (countType_cons TOKEN_NEWSCOPE), (countType_cons TOKEN_ENDSCOPE).
    fold (opens t); fold (closes t); lia.
Qed.

Lemma TokensF_enough n : forall l,
  queue_ok l -> weight l <= n -> TokensF U n l <> None.
Proof.
  induction n as [|n IH]; intros l Hq Hn.
  { unfold weight in Hn; lia. }
  cbn [TokensF].
  destruct (Next_total l) as (r & l' & EN); rewrite EN.
  apply NextF_step in EN; [|assumption].
  destruct r as [t|e]; [|discriminate].
  destruct EN as (Hq' & _ & _ & Hlt).
  destruct (String.eqb (Type_ t) TOKEN_EOF) eqn:Et; [discriminate|].
  apply String.eqb_neq in Et; specialize (Hlt Et).
  specialize (IH l' Hq'); destruct (TokensF U n l') as [[ts e]|].
  - discriminate.
  - exfalso; apply IH; [lia | reflexivity].
Qed.

(** The caller's loop always comes to an end: with the end-of-input
    token or with the first error. *)
Lemma Tokens_total b : exists ts e, Tokens U b = Some (ts, e).
Proof.
  destruct (Tokens U b) as [[ts e]|] eqn:E; [eauto|].
  exfalso; revert E; apply TokensF_enough; [constructor | lia].
Qed.

End WithTables.

(** C4: on every input that is lexed up to the end-of-input token without
    an error, the token stream holds as many NEWSCOPE tokens as ENDSCOPE
    tokens. *)
Theorem tokens_balanced (U : Unicode) (b : list rune) (ts : list Token) :
  Tokens U b = Some (ts, None) ->
  countType TOKEN_NEWSCOPE ts = countType TOKEN_ENDSCOPE ts.
Proof.
  intros E; apply TokensF_balanced in E; [|constructor].
  unfold pending in E; cbn in E; lia.
Qed.

Definition nl : string := String (ascii_of_nat 10) EmptyString.

(** The nested-indent input of the repository's test and its tokens. *)
Definition nested_input : list rune :=
  runes (nl ++ "  for test" ++ nl ++ "    for" ++ nl ++ "    frog" ++ nl).

Definition nested_tokens : list Token :=
  [mkToken TOKEN_NEWSCOPE None; mkToken TOKEN_FOR None;
   mkToken TOKEN_WORD (Some (runes "test"));
   mkToken TOKEN_NEWSCOPE None; mkToken TOKEN_FOR None;
   mkToken TOKEN_WORD (Some (runes "frog"));
   endscope; endscope; mkToken TOKEN_EOF None].

Example nested_lexed : Tokens latin1 nested_input = Some (nested_tokens, None).
Proof. vm_compute; reflexivity. Qed.

Lemma tokens_balanced_witness :
  countType TOKEN_NEWSCOPE nested_tokens = countType TOKEN_ENDSCOPE nested_tokens.
Proof.
  apply (tokens_balanced latin1 nested_input).
  vm_compute; reflexivity.
Defined.

(** C5: a line whose indent is smaller than the top of the indent stack
    and, once every strictly greater entry is popped, differs from the new
    top of a stack that is not empty, makes [Next] fail with
    "Bad indent": the width is not matched against any other entry. *)
Theorem bad_indent (U : Unicode) (l : Lexer) (ws : list rune) (c : rune)
    (rest : list rune) (popped : list Z) (top' : Z) (st' : list Z) :
  queue l = [] ->
  buf l = newline :: ws ++ c :: rest ->
  Forall (fun x => white U x = true) ws ->
  white U c = false -> c <> newline ->
  indentsStack l = popped ++ top' :: st' ->
  popped <> [] ->
  Forall (fun x => (x > Z.of_nat (length ws))%Z) popped ->
  (top' < Z.of_nat (length ws))%Z ->
  Next U l =
    Some (Err "Bad indent",
          mkLexer (c :: rest) (top' :: st') (repeat endscope (length popped))).
Proof.
  destruct l as [b st q]; cbn [queue buf indentsStack].
  intros -> -> Hws Hc Hnl -> Hne Hpop Htop.
  unfold Next; cbn [buf length Nat.add NextF queue].
  replace (newline =? newline)%Z with true by (symmetry; apply Z.eqb_refl).
  unfold skipWhiteChars, skip; cbn [buf tl indentsStack queue].
  rewrite skipWhiteRunes_app by assumption; cbn [buf indentsStack queue].
  replace (c =? newline)%Z with false by (symmetry; apply Z.eqb_neq; assumption).
  destruct popped as [|p popped]; [congruence|].
  cbn [app]. inversion Hpop as [|? ? Hp Hpop']; subst.
  replace (Z.of_nat (length ws) >? p)%Z with false by lia.
  change (p :: popped ++ top' :: st') with ((p :: popped) ++ top' :: st').
  rewrite popIndents_app by (assumption || lia).
  replace (top' =? Z.of_nat (length ws))%Z with false by lia.
  reflexivity.
Qed.

(** After [a] at width 2 and [b] at width 6, a line at width 4. *)
Lemma bad_indent_witness :
  Next latin1 (mkLexer (runes (nl ++ "    c")) [6%Z; 2%Z] []) =
    Some (Err "Bad indent", mkLexer (runes "c") [2%Z] [endscope]).
Proof.
  apply (@bad_indent latin1 (mkLexer (runes (nl ++ "    c")) [6%Z; 2%Z] [])
           (runes "    ") 99%Z [] [6%Z] 2%Z []).
  - reflexivity.
  - reflexivity.
  - repeat constructor.
  - reflexivity.
  - discriminate.
  - reflexivity.
  - discriminate.
  - repeat constructor.
  - reflexivity.
Defined.

(** The same failure from the start of an input. *)
Example bad_indent_lexed :
  Tokens latin1 (runes (nl ++ "  a" ++ nl ++ "      b" ++ nl ++ "    c")) =
    Some ([mkToken TOKEN_NEWSCOPE None; mkToken TOKEN_WORD (Some (runes "a"));
           mkToken TOKEN_NEWSCOPE None; mkToken TOKEN_WORD (Some (runes "b"))],
          Some "Bad indent"%string).
Proof. vm_compute; reflexivity. Qed.

End ScopeLexerFacts.


Module RichLexerFacts.
Import Go GoFacts RichLexer.
Local Open Scope string_scope.

Lemma sliceTo_prefix (l : Lexer) (w rest : list rune) :
  buf l = (w ++ rest)%list -> sliceTo (length w) l = Returns w.
Proof.
  intros E; unfold sliceTo; rewrite E, length_app.
  replace (length w <=? length w + length rest + length (spare l))%nat
    with true by (symmetry; apply Nat.leb_le; lia).
  rewrite <- app_assoc, firstn_app, Nat.sub_diag, firstn_all; cbn.
  rewrite app_nil_r; reflexivity.
Qed.

Lemma skipBy_prefix (l : Lexer) (w rest : list rune) :
  buf l = (w ++ rest)%list ->
  skipBy (length w) l = Returns (setBuf rest (Z.of_nat (length w)) l).
Proof.
  intros E; unfold skipBy; rewrite E, length_app.
  replace (length w <=? length w + length rest)%nat
    with true by (symmetry; apply Nat.leb_le; lia).
  rewrite skipn_app, Nat.sub_diag, skipn_all; reflexivity.
Qed.

Section Keywords.
Variable U : Unicode.
Variable Scan : GoScanner.

Definition wordChar (c : rune) : bool := IsLetter U c || IsNumber U c.

(** The run is maximal: what follows it, if anything, is neither a
    letter nor a number. *)
Definition run_ends (rest : list rune) : Prop :=
  match rest with [] => True | c :: _ => wordChar c = false end.

Lemma wordPrefix_app (w rest : list rune) :
  Forall (fun c => wordChar c = true) w -> run_ends rest ->
  wordPrefix U (w ++ rest) = length w.
Proof.
  intros Hw Hr; induction Hw as [|c w Hc _ IH]; cbn [app length wordPrefix].
  - destruct rest as [|c rest]; [reflexivity|].
    cbn in *; unfold wordChar in Hr; rewrite Hr; reflexivity.
  - unfold wordChar in Hc; rewrite Hc, IH; reflexivity.
Qed.

Lemma scanWord_run (l : Lexer) (w rest : list rune) :
  buf l = (w ++ rest)%list ->
  Forall (fun c => wordChar c = true) w -> run_ends rest ->
  scanWord U l = Returns (w, setBuf rest (Z.of_nat (length w)) l).
Proof.
  intros E Hw Hr; unfold scanWord.
  rewrite E, wordPrefix_app by assumption.
  rewrite (sliceTo_prefix l w rest E), (skipBy_prefix l w rest E); reflexivity.
Qed.

(** What the lexer has an identifier run become, [in] apart: as the
    specification says, and RETURN for [ret]. *)
Definition code_token (s : list rune) : TokenType * option (list rune) :=
  if runes_eqb s (runes "ret") then (TOKEN_RETURN, None) else spec_token s.

Lemma keywordCase_spec (s : list rune) :
  runes_eqb s (runes "in") = false ->
  match keywordCase s with
  | Some ty => (ty, None)
  | None => (TOKEN_WORD, Some s)
  end = code_token s.
Proof.
  intros Hin.
  unfold keywordCase, code_token, spec_token, spec_keywords; cbn [altCase].
  repeat match goal with
         | |- context [runes_eqb s (runes ?k)] =>
             let E := fresh "E" in
             destruct (runes_eqb s (runes k)) eqn:E;
             [ first [ congruence
                     | apply runes_eqb_eq in E; subst s; vm_compute; reflexivity ]
             | ]
         end.
  reflexivity.
Qed.

Lemma keyword_run_token (l : Lexer) (c : rune) (w rest : list rune) :
  tokenIndent l = None ->
  buf l = ((c :: w) ++ rest)%list ->
  IsLetter U c = true -> IsSpace U c = false -> c <> newline ->
  Forall (fun x => wordChar x = true) w ->
  run_ends rest ->
  Next U Scan l =
    Some (Returns
      (Tok (match keywordCase (go_string (c :: w)) with
            | Some ty => mkToken ty (skipped l) None
            | None => mkToken TOKEN_WORD (skipped l) (Some (go_string (c :: w)))
            end),
       mkLexer rest (spare l) (indentsStack l) None
         (skipped l + Z.of_nat (length (c :: w))) (skipped l))).
Proof.
  destruct l as [b sp st ti sk pos]; cbn [tokenIndent buf spare indentsStack skipped].
  intros -> -> Hc Hsp Hnl Hw Hr.
  unfold Next; cbn [buf app length Nat.add NextF tokenIndent spare indentsStack
                    skipped curTokenPos].
  replace (c =? newline)%Z with false by (symmetry; apply Z.eqb_neq; assumption).
  cbn [negb]; rewrite Hsp, Hc.
  rewrite scanWord_run with (w := c :: w) (rest := rest);
    [ | reflexivity
      | constructor; [unfold wordChar; rewrite Hc; reflexivity | assumption]
      | assumption ].
  cbn [bind]. unfold retNewToken, newToken, setBuf; cbn.
  destruct (keywordCase _); reflexivity.
Qed.

End Keywords.

(** C9, as amended: a maximal run of letters and numbers that starts with
    a letter and is not [in] becomes the keyword token of its name when it
    is one of the listed keywords, the RETURN token when it is [ret], and
    a WORD token carrying its text otherwise. *)
Theorem keyword_tokens (U : Unicode) (Scan : GoScanner) (l : Lexer)
    (c : rune) (w rest : list rune) :
  tokenIndent l = None ->
  buf l = ((c :: w) ++ rest)%list ->
  IsLetter U c = true -> IsSpace U c = false -> c <> newline ->
  Forall (fun x => wordChar U x = true) w ->
  run_ends U rest ->
  go_string (c :: w) <> runes "in" ->
  Next U Scan l =
    Some (Returns
      (Tok (mkToken (fst (code_token (go_string (c :: w)))) (skipped l)
              (snd (code_token (go_string (c :: w))))),
       mkLexer rest (spare l) (indentsStack l) None
         (skipped l + Z.of_nat (length (c :: w))) (skipped l))).
Proof.
  intros Hti Hb Hc Hsp Hnl Hw Hr Hin.
  rewrite (@keyword_run_token U Scan l c w rest Hti Hb Hc Hsp Hnl Hw Hr).
  assert (E : runes_eqb (go_string (c :: w)) (runes "in") = false).
  { destruct (runes_eqb _ _) eqn:E; [|reflexivity].
    apply runes_eqb_eq in E; contradiction. }
  rewrite <- (keywordCase_spec _ E).
  destruct (keywordCase _); reflexivity.
Qed.

Lemma keyword_tokens_witness :
  Next latin1 decimalScanner (NewLexer (runes "goto out") []) =
    Some (Returns
      (Tok (mkToken TOKEN_GOTO 0 None),
       mkLexer (runes " out") [] [] None 4 0)).
Proof.
  apply (@keyword_tokens latin1 decimalScanner (NewLexer (runes "goto out") [])
           103%Z (runes "oto") (runes " out")).
  - reflexivity.
  - reflexivity.
  - reflexivity.
  - reflexivity.
  - discriminate.
  - repeat constructor.
  - reflexivity.
  - discriminate.
Defined.

(** The claim of C9 as it is written: every such run becomes what the
    specification's keyword list says. *)
Definition keywords_as_listed (U : Unicode) (Scan : GoScanner) : Prop :=
  forall (l : Lexer) (c : rune) (w rest : list rune),
    tokenIndent l = None ->
    buf l = ((c :: w) ++ rest)%list ->
    IsLetter U c = true -> IsSpace U c = false -> c <> newline ->
    Forall (fun x => wordChar U x = true) w ->
    run_ends U rest ->
    exists l',
      Next U Scan l =
        Some (Returns
          (Tok (mkToken (fst (spec_token (go_string (c :: w)))) (skipped l)
                  (snd (spec_token (go_string (c :: w))))), l')).

(** [ret] is not in the list, yet it is lexed as the RETURN keyword. *)
Lemma ret_is_a_keyword : ~ keywords_as_listed latin1 decimalScanner.
Proof.
  intros H.
  assert (Hnl : 114%Z <> newline) by discriminate.
  assert (Hw : Forall (fun x => wordChar latin1 x = true) (runes "et"))
    by (repeat constructor).
  destruct (H (NewLexer (runes "ret") []) 114%Z (runes "et") []
              eq_refl eq_refl eq_refl eq_refl Hnl Hw I) as [l' E].
  vm_compute in E; discriminate E.
Qed.

(** [in] is in the list, yet it is lexed as a WORD. *)
Example in_is_a_word :
  Next latin1 decimalScanner (NewLexer (runes "in") []) =
    Some (Returns
      (Tok (mkToken TOKEN_WORD 0 (Some (runes "in"))),
       mkLexer [] [] [] None 2 0)).
Proof. reflexivity. Qed.

(** C3: with an operator character as the last character of a slice
    without spare capacity, [checkAlt] slices past the capacity and [Next]
    panics. *)
Theorem Next_panics_mid_operator :
  Forall
    (fun ch =>
       Next latin1 decimalScanner (NewLexer [ch] []) =
         Some (Panics "slice bounds out of range"))
    (runes "=<+&|").
Proof. repeat constructor. Qed.

(** The same on a longer input, once the lexer has reached the last
    character. *)
Example Next_panics_after_word :
  exists t l,
    Next latin1 decimalScanner (NewLexer (runes "x =") []) = Some (Returns (Tok t, l))
    /\ Next latin1 decimalScanner l = Some (Panics "slice bounds out of range").
Proof. do 2 eexists; split; reflexivity. Qed.

(** With spare capacity behind the last character the slice expression is
    legal and the one-character operator is found. *)
Example Next_with_spare_capacity :
  Next latin1 decimalScanner (NewLexer (runes "=") [0%Z]) =
    Some (Returns
      (Tok (mkToken TOKEN_ASSIGN 0 (Some (runes "="))),
       mkLexer [] [0%Z] [] None 1 0)).
Proof. reflexivity. Qed.

End RichLexerFacts.

Module NegotiatorFacts.
Import Go Negotiator.
Local Open Scope string_scope.

Lemma Kind_eqb_eq (a b : Kind) : Kind_eqb a b = true <-> a = b.
Proof. destruct a, b; cbn; split; intros H; try reflexivity; discriminate. Qed.

Lemma IsInterface_root (t : Ty) :
  IsInterface t = true -> exists ms, RootType t = IfaceType ms.
Proof.
  unfold IsInterface; intros H; apply Kind_eqb_eq in H.
  destruct (RootType t); try discriminate; eauto.
Qed.

Lemma IsInterface_Known (t : Ty) : IsInterface t = true -> Known t = true.
Proof. destruct t; cbn; intros H; try reflexivity; discriminate. Qed.

Section WithModel.
Variable M : TypeModel.

Lemma Implements_returns (iface value : Ty) :
  IsInterface iface = true -> exists b, Implements M iface value = Returns b.
Proof.
  intros H; destruct (IsInterface_root _ H) as [ms E].
  unfold Implements; rewrite E.
  destruct value; eexists; reflexivity.
Qed.

(** [IsAssignable] itself never panics: the type assertion inside
    [Implements] is guarded by [IsInterface]. *)
Lemma IsAssignable_returns (to what : Ty) :
  exists b, IsAssignable M to what = Returns b.
Proof.
  unfold IsAssignable; destruct (IsInterface to) eqn:H.
  - apply Implements_returns; assumption.
  - destruct (IsNamed to && IsNamed what); eexists; reflexivity.
Qed.

Lemma IsAssignable_refl (t : Ty) :
  IsInterface t = false -> IsAssignable M t t = Returns true.
Proof.
  intros H; unfold IsAssignable; rewrite H.
  destruct (IsNamed t && IsNamed t); rewrite String.eqb_refl; reflexivity.
Qed.

Lemma AreComparable_returns (t1 t2 : Ty) :
  exists b, AreComparable M t1 t2 = Returns b.
Proof.
  unfold AreComparable.
  destruct (_ || _); [eexists; reflexivity|].
  destruct (IsAssignable_returns t1 t2) as [a ->]; cbn [bind].
  destruct a; cbn [negb]; [|eexists; reflexivity].
  destruct (IsAssignable_returns t2 t1) as [b ->]; cbn [bind].
  destruct b; eexists; reflexivity.
Qed.

(** On two SIMPLE types [AreOrdered] is as the specification says. *)
Lemma AreOrdered_simple (id1 id2 : SimpleID) :
  AreOrdered M (SimpleType id1) (SimpleType id2) =
    Returns true <->
  AreComparable M (SimpleType id1) (SimpleType id2) = Returns true
  /\ SimpleID_eqb id1 id2 = true
  /\ (id1 = SIMPLE_TYPE_INT \/ id1 = SIMPLE_TYPE_STRING).
Proof.
  unfold AreOrdered.
  destruct (AreComparable_returns (SimpleType id1) (SimpleType id2)) as [c ->].
  cbn [bind]; destruct c; cbn [negb].
  - destruct (SimpleID_eqb id1 id2); cbn [negb].
    + destruct id1; split; intros H;
        try discriminate H; try (repeat split; auto; fail);
        destruct H as (_ & _ & [H | H]); discriminate H.
    + split; [discriminate | intros (_ & H & _); discriminate H].
  - split; [discriminate | intros (H & _); discriminate H].
Qed.

(** On a comparable pair that is not a pair of SIMPLE types it runs
    into [panic("todo")]. *)
Lemma AreOrdered_todo (t1 t2 : Ty) :
  AreComparable M t1 t2 = Returns true ->
  Kind_eqb (KindOf t1) KIND_SIMPLE && Kind_eqb (KindOf t2) KIND_SIMPLE = false ->
  AreOrdered M t1 t2 = Panics "todo".
Proof.
  intros Hc Hk; unfold AreOrdered; rewrite Hc; cbn [bind negb].
  destruct t1; try reflexivity; destruct t2; try reflexivity; discriminate Hk.
Qed.

End WithModel.

Definition intType : Ty := SimpleType SIMPLE_TYPE_INT.
Definition stringType : Ty := SimpleType SIMPLE_TYPE_STRING.

(** [type Stringer interface { String() string }]: a named type whose
    declaration aliases an interface and has no methods of its own. *)
Definition StringMethod : FuncDecl :=
  mkFuncDecl "String" (FuncType [] [stringType]) false.
Definition Stringer : Ty :=
  CustomType (mkTypeDecl "Stringer" (IfaceType [("String", StringMethod)]) []).

(** C6: two identical slice types are comparable, and [AreOrdered] panics
    on them instead of returning false. *)
Theorem AreOrdered_panics_on_slices (M : TypeModel) :
  AreComparable M (SliceType intType) (SliceType intType) = Returns true
  /\ AreOrdered M (SliceType intType) (SliceType intType) = Panics "todo".
Proof.
  assert (H : AreComparable M (SliceType intType) (SliceType intType) = Returns true).
  { unfold AreComparable; cbn [KindOf Kind_eqb orb].
    rewrite IsAssignable_refl by reflexivity; reflexivity. }
  split; [exact H | apply AreOrdered_todo; [exact H | reflexivity]].
Qed.

(** C8: a named interface type with a method is known and is not
    assignable to itself: [Implements] looks for the method among the
    methods declared on the name, where there is none. *)
Theorem IsAssignable_not_reflexive (M : TypeModel) :
  Known Stringer = true /\ IsAssignable M Stringer Stringer = Returns false.
Proof. split; reflexivity. Qed.

(** *** [NegotiateExprType] *)









(** C2: with an interface type in the slot and a value of unknown type
    whose guess succeeds with [g], the negotiation demands that [g] be
    assignable to the slot and applies [g] to the value; the slot keeps
    the interface type and the outcome is that of applying [g]. *)
Theorem interface_keeps_guess (M : TypeModel) (S : Type) (value : TypedExpr S)
    (t vt g : Ty) (s s1 : S) :
  IsInterface t = true ->
  TypeOf value s = Returns (Some vt) -> Known vt = false ->
  GuessType value s = Returns (true, Some g, s1) ->
  NegotiateExprType M value (Some t) s =
    (a <- IsAssignable M t g ;;
     if a
     then r <- ApplyType value g s1 ;; Returns (fst r, t, snd r)
     else Returns (Some (notAssignable M t g), t, s1)).
Proof.
  intros Hi HT Hvt HG; unfold NegotiateExprType.
  rewrite HT; cbn [bind firstKnown KnownOf nonilTyp].
  rewrite (IsInterface_Known _ Hi); cbn [bind].
  rewrite HT; cbn [bind KnownOf]; rewrite Hvt; cbn [negb].
  rewrite Hi, HG; cbn [bind].
  destruct (IsAssignable M t g) as [[|]|]; reflexivity.
Qed.

(** [var x: interface {} = 42]: the literal ends with its guessed type
    [int], the slot keeps the empty interface, no error. *)
Lemma interface_keeps_guess_witness :
  NegotiateExprType specModel (BasicLitExpr specModel) (Some (IfaceType []))
    (mkBasicLit TOKEN_INT None) =
  Returns (None, IfaceType [], mkBasicLit TOKEN_INT (Some intType)).
Proof.
  exact (@interface_keeps_guess specModel BasicLit (BasicLitExpr specModel)
           (IfaceType []) UnknownType intType (mkBasicLit TOKEN_INT None)
           (mkBasicLit TOKEN_INT None) eq_refl eq_refl eq_refl eq_refl).
Defined.

(** C10: when the value's type is known and not assignable to the
    negotiated type, the error is returned with the negotiated type
    already written to the slot; the tree is untouched. *)
Theorem slot_overwritten_on_error (M : TypeModel) (S : Type)
    (value : TypedExpr S) (varType : option Ty) (s : S) (own typ : Ty) :
  TypeOf value s = Returns (Some own) -> Known own = true ->
  typ = (if Known (nonilTyp varType) then nonilTyp varType else own) ->
  IsAssignable M typ own = Returns false ->
  NegotiateExprType M value varType s =
    Returns (Some (notAssignable M typ own), typ, s)
  /\ Known typ = true.
Proof.
  intros HT Hown Htyp Ha; unfold NegotiateExprType.
  rewrite HT; cbn [bind firstKnown KnownOf].
  destruct (Known (nonilTyp varType)) eqn:Hk; subst typ.
  - cbn [bind]; rewrite HT; cbn [bind KnownOf]. rewrite Hown; cbn [negb nonilTyp].
    rewrite Ha; cbn [bind negb]; split; [reflexivity | assumption].
  - split; [|assumption].
    rewrite Hown; cbn [bind]. rewrite HT; cbn [bind KnownOf].
    rewrite Hown; cbn [negb nonilTyp].
    rewrite Ha; reflexivity.
Qed.

(** [var y = x] with [x] of the named interface type [Stringer] and [y]
    of no type yet: the slot goes from [nil] to [Stringer] and the error
    is returned. *)
Definition stringerVar : Ident := mkIdent "x" (Some (OBJECT_VAR (Some Stringer))).

Lemma slot_overwritten_on_error_witness :
  NegotiateExprType specModel (IdentExpr specModel) None stringerVar =
    Returns (Some "Types Stringer and Stringer are not assignable", Stringer,
             stringerVar)
  /\ Known Stringer = true.
Proof.
  exact (@slot_overwritten_on_error specModel Ident (IdentExpr specModel) None
           stringerVar Stringer Stringer eq_refl eq_refl eq_refl eq_refl).
Defined.

(** With a declared type: [var y: int = x] for [x] of type [string]. *)
Example slot_kept_on_error :
  NegotiateExprType specModel (IdentExpr specModel) (Some intType)
    (mkIdent "x" (Some (OBJECT_VAR (Some stringType)))) =
    Returns (Some "Types int and string are not assignable", intType,
             mkIdent "x" (Some (OBJECT_VAR (Some stringType)))).
Proof. reflexivity. Qed.

(** *** [SendStmt.NegotiateTypes] *)

Definition notChan : string := "Not a chan used for sending".
Definition receiveOnly : string := "Channel is receive-only".
Definition notSendable : string :=
  "Send value has to be assignable to channel's base type".

(** C7, as amended: a send statement negotiates its left side and then
    its right side, each against a slot of unknown type, and returns the
    first error either negotiation gives.  It is accepted only when both
    sides negotiate, the root of the negotiated left type is a channel
    that is not receive-only and the negotiated right type is assignable
    to its element type; and once both sides have negotiated, it fails
    when the root of the left type is not CHAN, fails with "Channel is
    receive-only" on a receive-only channel, fails when the right type is
    not assignable to the element type, and succeeds otherwise. *)
Theorem send_negotiation (M : TypeModel) (S : Type) (Lhs Rhs : TypedExpr S)
    (s : S) :
  (forall s',
     SendStmt_NegotiateTypes M Lhs Rhs s = Returns (None, s') ->
     exists ltyp rtyp s1 Of Dir,
       NegotiateExprType M Lhs (Some UnknownType) s = Returns (None, ltyp, s1)
       /\ NegotiateExprType M Rhs (Some UnknownType) s1 = Returns (None, rtyp, s')
       /\ RootType ltyp = ChanType Of Dir
       /\ Dir <> CHAN_DIR_RECEIVE
       /\ IsAssignable M Of rtyp = Returns true)
  /\
  (forall ltyp rtyp s1 s2,
     NegotiateExprType M Lhs (Some UnknownType) s = Returns (None, ltyp, s1) ->
     NegotiateExprType M Rhs (Some UnknownType) s1 = Returns (None, rtyp, s2) ->
     (KindOf (RootType ltyp) <> KIND_CHAN ->
      SendStmt_NegotiateTypes M Lhs Rhs s = Returns (Some notChan, s2))
     /\ (forall Of, RootType ltyp = ChanType Of CHAN_DIR_RECEIVE ->
         SendStmt_NegotiateTypes M Lhs Rhs s = Returns (Some receiveOnly, s2))
     /\ (forall Of Dir, RootType ltyp = ChanType Of Dir ->
         Dir <> CHAN_DIR_RECEIVE ->
         IsAssignable M Of rtyp = Returns false ->
         SendStmt_NegotiateTypes M Lhs Rhs s = Returns (Some notSendable, s2))
     /\ (forall Of Dir, RootType ltyp = ChanType Of Dir ->
         Dir <> CHAN_DIR_RECEIVE ->
         IsAssignable M Of rtyp = Returns true ->
         SendStmt_NegotiateTypes M Lhs Rhs s = Returns (None, s2)))
  /\
  (forall e ltyp s1,
     NegotiateExprType M Lhs (Some UnknownType) s = Returns (Some e, ltyp, s1) ->
     SendStmt_NegotiateTypes M Lhs Rhs s = Returns (Some e, s1))
  /\
  (forall ltyp s1 e rtyp s2,
     NegotiateExprType M Lhs (Some UnknownType) s = Returns (None, ltyp, s1) ->
     NegotiateExprType M Rhs (Some UnknownType) s1 = Returns (Some e, rtyp, s2) ->
     SendStmt_NegotiateTypes M Lhs Rhs s = Returns (Some e, s2)).
Proof.
  split; [|split; [|split]].
  - intros s' H; unfold SendStmt_NegotiateTypes in H.
    destruct (NegotiateExprType M Lhs (Some UnknownType) s)
      as [[[err1 ltyp] s1]|] eqn:HL; cbn [bind] in H; [|discriminate H].
    destruct err1; [inversion H|].
    destruct (NegotiateExprType M Rhs (Some UnknownType) s1)
      as [[[err2 rtyp] s2]|] eqn:HR; cbn [bind] in H; [|discriminate H].
    destruct err2; [inversion H|].
    destruct (RootType ltyp) as [| | | | | |Of Dir| | | | |] eqn:Hroot;
      try (inversion H; fail).
    destruct (IsAssignable M Of rtyp) as [a|] eqn:Ha;
      [|destruct Dir; discriminate H].
    exists ltyp, rtyp, s1, Of, Dir.
    destruct Dir; cbn [bind] in H; try discriminate H;
      destruct a; cbn [negb] in H; inversion H; subst;
      repeat split; auto; discriminate.
  - intros ltyp rtyp s1 s2 HL HR.
    unfold SendStmt_NegotiateTypes; rewrite HL; cbn [bind]; rewrite HR; cbn [bind].
    repeat split.
    + intros Hk; destruct (RootType ltyp); try reflexivity.
      exfalso; apply Hk; reflexivity.
    + intros Of ->; reflexivity.
    + intros Of Dir -> Hd Ha; rewrite Ha.
      destruct Dir; try reflexivity; contradiction.
    + intros Of Dir -> Hd Ha; rewrite Ha.
      destruct Dir; try reflexivity; contradiction.
  - intros e ltyp s1 HL; unfold SendStmt_NegotiateTypes.
    rewrite HL; reflexivity.
  - intros ltyp s1 e rtyp s2 HL HR; unfold SendStmt_NegotiateTypes.
    rewrite HL; cbn [bind]; rewrite HR; reflexivity.
Qed.

(** [ch <- 1] with [ch] a receive-only channel of [int]. *)
Definition recvChan : Ident :=
  mkIdent "ch" (Some (OBJECT_VAR (Some (ChanType intType CHAN_DIR_RECEIVE)))).

Lemma send_negotiation_witness :
  SendStmt_NegotiateTypes specModel
    (onFst BasicLit (IdentExpr specModel)) (onSnd Ident (BasicLitExpr specModel))
    (recvChan, mkBasicLit TOKEN_INT None) =
  Returns (Some receiveOnly, (recvChan, mkBasicLit TOKEN_INT (Some intType))).
Proof.
  exact (proj1 (proj2
           (proj1 (proj2 (@send_negotiation specModel (Ident * BasicLit)
                     (onFst BasicLit (IdentExpr specModel))
                     (onSnd Ident (BasicLitExpr specModel))
                     (recvChan, mkBasicLit TOKEN_INT None)))
              (ChanType intType CHAN_DIR_RECEIVE) intType
              (recvChan, mkBasicLit TOKEN_INT None)
              (recvChan, mkBasicLit TOKEN_INT (Some intType))
              eq_refl eq_refl))
           intType eq_refl).
Defined.

(** The same statement on a channel that can be sent to. *)
Example send_accepted :
  SendStmt_NegotiateTypes specModel
    (onFst BasicLit (IdentExpr specModel)) (onSnd Ident (BasicLitExpr specModel))
    (mkIdent "ch" (Some (OBJECT_VAR (Some (ChanType intType CHAN_DIR_BI)))),
     mkBasicLit TOKEN_INT None) =
  Returns (None,
           (mkIdent "ch" (Some (OBJECT_VAR (Some (ChanType intType CHAN_DIR_BI)))),
            mkBasicLit TOKEN_INT (Some intType))).
Proof. reflexivity. Qed.

End NegotiatorFacts.

(** * Further properties of the scope-emitting lexer *)

Module ScopeLexerMore.
Import Go ScopeLexer ScopeLexerFacts.

(** The indent stack grows towards its top: every entry is strictly greater
    than the one pushed before it, and none is negative. *)
Definition stack_ok (st : list Z) : Prop :=
  Sorted Z.gt st /\ Forall (fun x => (0 <= x)%Z) st.

Section WithTables.
Variable U : Unicode.

Lemma TokensF_length n : forall l ts e,
  TokensF U n l = Some (ts, e) -> length ts <= n.
Proof.
  induction n as [|n IH]; intros l ts e E; [discriminate|].
  cbn [TokensF] in E.
  destruct (Next U l) as [[[t|msg] l']|]; try discriminate.
  - destruct (String.eqb _ _).
    + inversion E; subst; cbn; lia.
    + destruct (TokensF U n l') as [[ts' e']|] eqn:ET; [|discriminate].
      inversion E; subst; apply IH in ET; cbn; lia.
  - inversion E; subst; cbn; lia.
Qed.

Lemma TokensF_prefix n : forall l ts e k,
  queue_ok l -> TokensF U n l = Some (ts, e) ->
  countType TOKEN_ENDSCOPE (firstn k ts) <=
    countType TOKEN_NEWSCOPE (firstn k ts) + pending l.
Proof.
  induction n as [|n IH]; intros l ts e k Hq E; [discriminate|].
  cbn [TokensF] in E.
  destruct (Next U l) as [[[t|msg] l']|] eqn:EN; try discriminate.
  - apply NextF_step in EN; [|assumption].
    destruct EN as (Hq' & Hbal & _).
    assert (Hone : forall ts', (forall j,
               countType TOKEN_ENDSCOPE (firstn j ts') <=
                 countType TOKEN_NEWSCOPE (firstn j ts') + pending l') ->
             countType TOKEN_ENDSCOPE (firstn k (t :: ts')) <=
               countType TOKEN_NEWSCOPE (firstn k (t :: ts')) + pending l).
    { intros ts' H; destruct k as [|k]; cbn [firstn]; [cbn; lia|].
      rewrite (countType_cons TOKEN_NEWSCOPE), (countType_cons TOKEN_ENDSCOPE).
      specialize (H k); fold (opens t); fold (closes t); lia. }
    destruct (String.eqb _ _).
    + inversion E; subst; apply Hone.
      intros j; destruct j; cbn; lia.
    + destruct (TokensF U n l') as [[ts' e']|] eqn:ET; [|discriminate].
      inversion E; subst; apply Hone.
      intros j; apply (IH l' ts' e j Hq' ET).
  - inversion E; subst; destruct k; cbn; lia.
Qed.

(** The end-of-input token comes from one place only. *)
Lemma NextF_eof n : forall l t l',
  queue_ok l -> NextF U n l = Some (Tok t, l') -> Type_ t = TOKEN_EOF ->
  t = mkToken TOKEN_EOF None /\ l' = mkLexer [] [] [].
Proof.
  induction n as [|n IH]; intros [b st q] t l' Hq E Ht; [discriminate|].
  unfold queue_ok in Hq; cbn [NextF queue buf indentsStack] in E.
  destruct q as [|t0 q].
  - destruct b as [|ch b].
    + cbn [app] in E. destruct st as [|top st].
      * inversion E; subst; split; reflexivity.
      * apply IH in E; [assumption| |assumption].
        unfold queue_ok; cbn. constructor; [reflexivity|].
        apply Forall_forall; intros x Hx; apply in_map_iff in Hx.
        destruct Hx as (? & <- & _); reflexivity.
    + destruct (ch =? newline)%Z.
      * unfold skipWhiteChars, skip in E; cbn [buf indentsStack queue tl] in E.
        destruct (skipWhiteRunes U b) as [indent b2].
        cbn [buf indentsStack queue] in E.
        destruct b2 as [|c b2'].
        { apply IH in E; [assumption|constructor|assumption]. }
        destruct (c =? newline)%Z.
        { apply IH in E; [assumption|constructor|assumption]. }
        destruct st as [|top st].
        { inversion E; subst; discriminate Ht. }
        destruct (indent >? top)%Z.
        { inversion E; subst; discriminate Ht. }
        destruct (popIndents indent (top :: st) []) as [st3 q3] eqn:Hpop.
        apply popIndents_spec in Hpop; [|constructor].
        destruct Hpop as [Hq3 _].
        destruct st3 as [|top' st3].
        { apply IH in E; assumption. }
        destruct (negb _); [discriminate E|].
        apply IH in E; assumption.
      * destruct (IsSpace U ch).
        -- apply IH in E; [assumption| |assumption].
           unfold skipWhiteChars; cbn [buf indentsStack queue].
           destruct (skipWhiteRunes U (ch :: b)); constructor.
        -- destruct (IsLetter U ch); [|discriminate E].
           destruct (scanWord U _) as [w l1].
           destruct (runes_eqb _ _); inversion E; subst; discriminate Ht.
  - inversion E; subst; inversion Hq as [|? ? Hx Hq']; subst.
    discriminate Ht.
Qed.

(** More fuel does not change what [Next] returns. *)
Lemma NextF_more n : forall l r m,
  NextF U n l = Some r -> n <= m -> NextF U m l = Some r.
Proof.
  induction n as [|n IH]; intros [b st q] r m E Hm; [discriminate|].
  destruct m as [|m]; [lia|].
  assert (IH' : forall x, NextF U n x = Some r -> NextF U m x = Some r)
    by (intros x Hx; apply (IH x r m Hx); lia).
  cbn [NextF queue buf indentsStack] in E |- *.
  destruct q as [|t0 q]; [|assumption].
  destruct b as [|ch b].
  - cbn [app] in E |- *.
    destruct (map _ st); [assumption | apply IH'; assumption].
  - destruct (ch =? newline)%Z.
    + destruct (skipWhiteChars U _) as [indent l2].
      destruct (buf l2) as [|c b2]; [apply IH'; assumption|].
      destruct (c =? newline)%Z; [apply IH'; assumption|].
      destruct (indentsStack l2) as [|top st2]; [assumption|].
      destruct (indent >? top)%Z; [assumption|].
      destruct (popIndents indent (top :: st2) (queue l2)) as [st3 q3].
      destruct st3 as [|top' st3]; [apply IH'; assumption|].
      destruct (negb _); [assumption | apply IH'; assumption].
    + destruct (IsSpace U ch); [apply IH'; assumption|].
      destruct (IsLetter U ch); assumption.
Qed.

Lemma popIndents_sorted indent : forall st q st' q',
  popIndents indent st q = (st', q') -> stack_ok st -> stack_ok st'.
Proof.
  induction st as [|top st IH]; cbn; intros q st' q' E [Hs Hp].
  - inversion E; subst; split; constructor.
  - destruct (top >? indent)%Z.
    + apply IH in E; [assumption|].
      inversion Hs; inversion Hp; subst; split; assumption.
    + inversion E; subst; split; assumption.
Qed.

Lemma skipWhiteRunes_nonneg b : (0 <= fst (skipWhiteRunes U b))%Z.
Proof.
  induction b as [|c b IH]; cbn; [lia|].
  destruct (white U c); cbn; [|lia].
  destruct (skipWhiteRunes U b); cbn in *; lia.
Qed.

Lemma NextF_stack n : forall l r l',
  NextF U n l = Some (r, l') ->
  stack_ok (indentsStack l) -> stack_ok (indentsStack l').
Proof.
  induction n as [|n IH]; intros [b st q] r l' E Hs; [discriminate|].
  cbn [NextF queue buf indentsStack] in E; cbn [indentsStack] in Hs.
  destruct q as [|t0 q]; [|inversion E; subst; assumption].
  destruct b as [|ch b].
  - destruct (([] ++ _)%list).
    + inversion E; subst; split; constructor.
    + apply IH in E; [assumption | split; constructor].
  - destruct (ch =? newline)%Z.
    + unfold skipWhiteChars, skip in E; cbn [buf indentsStack queue tl] in E.
      pose proof (skipWhiteRunes_nonneg b) as Hi.
      destruct (skipWhiteRunes U b) as [indent b2]; cbn [fst] in Hi.
      cbn [buf indentsStack queue] in E.
      destruct b2 as [|c b2']; [apply IH in E; assumption|].
      destruct (c =? newline)%Z; [apply IH in E; assumption|].
      destruct st as [|top st].
      { inversion E; subst; split; repeat constructor; assumption. }
      destruct (indent >? top)%Z eqn:Hgt.
      { inversion E; subst; destruct Hs as [Hs Hp]; split.
        - constructor; [assumption | constructor; lia].
        - constructor; assumption. }
      destruct (popIndents indent (top :: st) []) as [st3 q3] eqn:Hpop.
      apply popIndents_sorted in Hpop; [|assumption].
      destruct st3 as [|top' st3]; [apply IH in E; assumption|].
      destruct (negb _); [inversion E; subst; assumption|].
      apply IH in E; assumption.
    + destruct (IsSpace U ch).
      * apply IH in E; [assumption|].
        unfold skipWhiteChars; cbn [buf indentsStack queue].
        destruct (skipWhiteRunes U (ch :: b)); assumption.
      * destruct (IsLetter U ch); [|inversion E; subst; assumption].
        unfold scanWord in E; cbn [buf indentsStack queue] in E.
        destruct (scanWordRunes U (ch :: b)) as [w b2].
        destruct (runes_eqb _ _); inversion E; subst; assumption.
Qed.

End WithTables.

(** X1: pulling tokens from any input comes to an end, with the end-of-input
    token or the first error, after at most [2 * len + 1] tokens. *)
Theorem stream_ends (U : Unicode) (b : list rune) :
  exists ts e, Tokens U b = Some (ts, e) /\ length ts <= 2 * length b + 1.
Proof.
  destruct (Tokens U b) as [[ts e]|] eqn:E.
  - exists ts, e; split; [reflexivity|].
    apply TokensF_length in E; unfold weight in E; cbn in E; lia.
  - exfalso; revert E; apply TokensF_enough; [constructor | lia].
Qed.

(** X2: scopes are closed after they are opened: in every prefix of the token
    stream, error or not, there are at most as many ENDSCOPE tokens as
    NEWSCOPE tokens. *)
Theorem scopes_nest (U : Unicode) (b : list rune) (ts : list Token)
    (e : option string) (k : nat) :
  Tokens U b = Some (ts, e) ->
  countType TOKEN_ENDSCOPE (firstn k ts) <= countType TOKEN_NEWSCOPE (firstn k ts).
Proof.
  intros E; unfold Tokens in E.
  apply TokensF_prefix with (k := k) in E; [|constructor].
  unfold pending in E; cbn in E; lia.
Qed.

Lemma scopes_nest_witness :
  countType TOKEN_ENDSCOPE (firstn 7 nested_tokens) <=
    countType TOKEN_NEWSCOPE (firstn 7 nested_tokens).
Proof.
  apply (@scopes_nest latin1 nested_input nested_tokens None 7).
  vm_compute; reflexivity.
Defined.

(** X3: the end of input is final: once [Next] has returned the end-of-input
    token, it returns it again and the lexer no longer changes. *)
Theorem eof_is_final (U : Unicode) (l : Lexer) (t : Token) (l' : Lexer) :
  queue_ok l -> Next U l = Some (Tok t, l') -> Type_ t = TOKEN_EOF ->
  Next U l' = Some (Tok t, l').
Proof.
  intros Hq E Ht; unfold Next in E.
  destruct (NextF_eof _ _ Hq E Ht) as [-> ->]; reflexivity.
Qed.

Lemma eof_is_final_witness :
  Next latin1 (mkLexer [] [] []) = Some (Tok (mkToken TOKEN_EOF None), mkLexer [] [] []).
Proof.
  apply (@eof_is_final latin1 (NewLexer (runes "  ")) (mkToken TOKEN_EOF None)
           (mkLexer [] [] [])).
  - constructor.
  - reflexivity.
  - reflexivity.
Defined.

(** X4: a line that holds only whitespace is skipped: the lexer goes on as if
    the line were not there. *)
Theorem blank_line_skipped (U : Unicode) (l : Lexer) (ws rest : list rune) :
  queue l = [] ->
  buf l = newline :: ws ++ newline :: rest ->
  Forall (fun x => white U x = true) ws ->
  Next U l = Next U (mkLexer (newline :: rest) (indentsStack l) []).
Proof.
  destruct l as [b st q]; cbn [queue buf indentsStack]; intros -> -> Hws.
  destruct (Next_total U (mkLexer (newline :: rest) st [])) as (r & l' & E).
  rewrite E. unfold Next in E |- *.
  cbn [buf length Nat.add NextF queue].
  replace (newline =? newline)%Z with true by reflexivity.
  unfold skipWhiteChars, skip; cbn [buf tl indentsStack queue].
  rewrite skipWhiteRunes_app
    by (try assumption; unfold white; rewrite Z.eqb_refl; apply andb_false_r).
  cbn [buf indentsStack queue].
  replace (newline =? newline)%Z with true by reflexivity.
  eapply NextF_more; [exact E|].
  rewrite length_app; cbn [buf length]; lia.
Qed.

Lemma blank_line_skipped_witness :
  Next latin1 (NewLexer (runes (nl ++ "   " ++ nl ++ "  for"))) =
  Next latin1 (NewLexer (runes (nl ++ "  for"))).
Proof.
  apply (@blank_line_skipped latin1 (NewLexer (runes (nl ++ "   " ++ nl ++ "  for")))
           (runes "   ") (runes "  for")).
  - reflexivity.
  - reflexivity.
  - repeat constructor.
Defined.

(** X5: [Next] keeps the indent stack strictly increasing towards its top,
    with no negative width, whatever it returns. *)
Theorem stack_stays_sorted (U : Unicode) (l : Lexer) (r : result) (l' : Lexer) :
  stack_ok (indentsStack l) -> Next U l = Some (r, l') ->
  stack_ok (indentsStack l').
Proof. intros Hs E; eapply NextF_stack; [exact E | exact Hs]. Qed.

Lemma stack_stays_sorted_witness :
  stack_ok [6%Z; 2%Z].
Proof.
  apply (@stack_stays_sorted latin1 (mkLexer (runes (nl ++ "      b")) [2%Z] [])
           (Tok (mkToken TOKEN_NEWSCOPE None)) (mkLexer (runes "b") [6%Z; 2%Z] [])).
  - split; repeat constructor; lia.
  - reflexivity.
Defined.

Lemma scanWordRunes_run (U : Unicode) (w rest : list rune) :
  Forall (fun x => IsLetter U x = true) w ->
  match rest with [] => True | x :: _ => IsLetter U x = false end ->
  scanWordRunes U (w ++ rest) = (w, rest).
Proof.
  intros Hw Hr; induction Hw as [|x w Hx _ IH]; cbn [app scanWordRunes].
  - destruct rest as [|x rest]; [reflexivity|].
    cbn [scanWordRunes]; rewrite Hr; reflexivity.
  - rewrite Hx, IH; reflexivity.
Qed.

(** X29: a line at the indent of the open scope opens and closes
    nothing: no token is made for its newline and its whitespace, the
    lexer goes on with what is on the line. *)
Theorem same_indent_opens_nothing (U : Unicode) (l : Lexer) (ws : list rune)
    (c : rune) (rest : list rune) (st : list Z) :
  queue l = [] ->
  buf l = newline :: ws ++ c :: rest ->
  Forall (fun x => white U x = true) ws ->
  white U c = false ->
  (c =? newline)%Z = false ->
  indentsStack l = Z.of_nat (length ws) :: st ->
  Next U l = Next U (mkLexer (c :: rest) (indentsStack l) []).
Proof.
  destruct l as [b stack q]; cbn [queue buf indentsStack].
  intros -> -> Hws Hc Hn ->.
  destruct (Next_total U (mkLexer (c :: rest) (Z.of_nat (length ws) :: st) []))
    as (r & l' & E).
  rewrite E. unfold Next in E |- *.
  cbn [buf length Nat.add NextF queue].
  replace (newline =? newline)%Z with true by reflexivity.
  unfold skipWhiteChars, skip; cbn [buf tl indentsStack queue].
  rewrite skipWhiteRunes_app by assumption.
  cbn [buf indentsStack queue]; rewrite Hn.
  rewrite Z.gtb_ltb, Z.ltb_irrefl.
  cbn [popIndents]; rewrite Z.gtb_ltb, Z.ltb_irrefl, Z.eqb_refl; cbn [negb].
  eapply NextF_more; [exact E|].
  rewrite length_app; cbn [buf length]; lia.
Qed.

Lemma same_indent_opens_nothing_witness :
  Next latin1 (mkLexer (runes (nl ++ "  for")) [2%Z] []) =
  Next latin1 (mkLexer (runes "for") [2%Z] []).
Proof.
  apply (@same_indent_opens_nothing latin1
           (mkLexer (runes (nl ++ "  for")) [2%Z] [])
           (runes "  ") 102%Z (runes "or") []).
  - reflexivity.
  - reflexivity.
  - repeat constructor.
  - reflexivity.
  - reflexivity.
  - reflexivity.
Defined.

(** X30: a run of letters is one token, the run being as long as it can
    be: FOR without a value when the run is [for], WORD with the run as
    its value otherwise; digits are no part of a word. *)
Theorem word_token (U : Unicode) (l : Lexer) (c : rune) (w rest : list rune) :
  queue l = [] ->
  buf l = (c :: w) ++ rest ->
  (c =? newline)%Z = false ->
  IsSpace U c = false ->
  Forall (fun x => IsLetter U x = true) (c :: w) ->
  match rest with [] => True | x :: _ => IsLetter U x = false end ->
  Next U l =
    Some (Tok (if runes_eqb (go_string (c :: w)) (runes "for")
               then mkToken TOKEN_FOR None
               else mkToken TOKEN_WORD (Some (go_string (c :: w)))),
          mkLexer rest (indentsStack l) []).
Proof.
  destruct l as [b stack q]; cbn [queue buf indentsStack].
  intros -> -> Hn Hs Hw Hr.
  unfold Next; cbn [buf app length Nat.add NextF queue].
  rewrite Hn, Hs. inversion Hw as [|? ? Hc _]; subst; rewrite Hc.
  unfold scanWord; cbn [buf indentsStack queue].
  change (c :: w ++ rest) with ((c :: w) ++ rest).
  rewrite (@scanWordRunes_run U (c :: w) rest Hw Hr).
  destruct (runes_eqb (go_string (c :: w)) (runes "for")); reflexivity.
Qed.

Lemma word_token_witness :
  Next latin1 (NewLexer (runes "ab1")) =
    Some (Tok (mkToken TOKEN_WORD (Some (runes "ab"))),
          mkLexer (runes "1") [] []).
Proof.
  apply (@word_token latin1 (NewLexer (runes "ab1")) 97%Z (runes "b")
           (runes "1")).
  - reflexivity.
  - reflexivity.
  - reflexivity.
  - reflexivity.
  - repeat constructor.
  - reflexivity.
Defined.

End ScopeLexerMore.

(** * Further properties of the rich lexer *)

Module RichLexerMore.
Import Go GoFacts RichLexer RichLexerFacts.
Local Open Scope string_scope.
Local Unset Implicit Arguments.

(** The token predicates of [lexer.go]. *)
Definition IsCompOp (t : Token) : bool :=
  match Type_ t with
  | TOKEN_EQUALS | TOKEN_NEQUALS | TOKEN_LT | TOKEN_GT | TOKEN_EQ_LT
  | TOKEN_EQ_GT => true
  | _ => false
  end.

Definition IsOrderOp (t : Token) : bool :=
  match Type_ t with
  | TOKEN_LT | TOKEN_GT | TOKEN_EQ_LT | TOKEN_EQ_GT => true
  | _ => false
  end.

Definition IsLogicalOp (t : Token) : bool :=
  match Type_ t with
  | TOKEN_AND | TOKEN_OR => true
  | _ => false
  end.

(** The lexer as [Next] sees it once it has set [curTokenPos]. *)
Definition enter (l0 : Lexer) : Lexer :=
  mkLexer (buf l0) (spare l0) (indentsStack l0) (tokenIndent l0)
    (skipped l0) (skipped l0).

(** The postponed indent token that [Next] hands out first, if any. *)
Definition pendingOf (l : Lexer) : option Token :=
  match buf l with
  | [] => tokenIndent l
  | c :: _ => if negb (c =? newline)%Z then tokenIndent l else None
  end.

Definition clearIndent (l : Lexer) : Lexer :=
  mkLexer (buf l) (spare l) (indentsStack l) None (skipped l) (curTokenPos l).

Section WithTables.
Variable U : Unicode.
Variable Scan : GoScanner.

(** The newline case of [Next] up to its call to itself. *)
Definition newlineStep (l : Lexer) : outcome Lexer :=
  l1 <- skip l ;;
  r <- skipWhiteChars U l1 ;;
  let '(ws, l2) := r in
  Returns
    (mkLexer (buf l2) (spare l2) (indentsStack l2)
       (Some (newToken l2 TOKEN_INDENT (Some (go_string ws))))
       (skipped l2) (curTokenPos l2)).

(** The cases of [Next] that do not call [Next] again, for a first
    character that is neither a newline nor other whitespace. *)
Definition leafCase (l : Lexer) (ch : rune) : outcome (result * Lexer) :=
  if IsLetter U ch then
    (r <- scanWord U l ;;
          let '(word, l1) := r in
          let s := go_string word in
          match keywordCase s with
          | Some ty => retNewToken l1 ty None
          | None => retNewToken l1 TOKEN_WORD (Some s)
          end)
  else if isChar "=" ch then
    (operatorCase ch ["=="; "="]
            [("=", TOKEN_ASSIGN); ("==", TOKEN_EQUALS)] l)
  else if isChar "!" ch then
    (operatorCase ch ["!="; "!"]
            [("!=", TOKEN_NEQUALS); ("!", TOKEN_NEGATE)] l)
  else if isChar "+" ch then
    (operatorCase ch ["++"; "+="; "+"]
            [("+", TOKEN_PLUS); ("+=", TOKEN_PLUS_ASSIGN);
             ("++", TOKEN_INCREMENT)] l)
  else if isChar "-" ch then
    (operatorCase ch ["--"; "-="; "-"]
            [("-", TOKEN_MINUS); ("-=", TOKEN_MINUS_ASSIGN);
             ("--", TOKEN_DECREMENT)] l)
  else if isChar "<" ch then
    (operatorCase ch ["<<"; "<-"; "<="; "<"]
            [("<", TOKEN_LT); ("<-", TOKEN_SEND);
             ("<<", TOKEN_SHL); ("<=", TOKEN_EQ_LT)] l)
  else if isChar ">" ch then
    (operatorCase ch [">>"; ">="; ">"]
            [(">", TOKEN_GT); (">>", TOKEN_SHR);
             (">=", TOKEN_EQ_GT)] l)
  else if IsNumber U ch then
    (r <- scanGoToken Scan l ;;
          let '(gotok, lit, err, l1) := r in
          match err with
          | Some msg => Returns (Err (ErrScanner msg), l1)
          | None => fromGoToken l1 gotok lit
          end)
  else if (ch =? 34)%Z then
    (r <- loadEscapedString l ;;
          let '(str, l1) := r in
          match str with
          | inr e => Returns (Err e, l1)
          | inl s => retNewToken l1 TOKEN_STR (Some s)
          end)
  else if isChar "(" ch then (punctCase TOKEN_LPARENTH None l)
  else if isChar ")" ch then (punctCase TOKEN_RPARENTH None l)
  else if isChar "[" ch then (punctCase TOKEN_LBRACKET None l)
  else if isChar "]" ch then (punctCase TOKEN_RBRACKET None l)
  else if isChar "{" ch then (punctCase TOKEN_LBRACE None l)
  else if isChar "}" ch then (punctCase TOKEN_RBRACE None l)
  else if isChar "." ch then (punctCase TOKEN_DOT None l)
  else if isChar "*" ch then
    (operatorCase ch ["*="; "*"]
            [("*", TOKEN_MUL); ("*=", TOKEN_MUL_ASSIGN)] l)
  else if isChar "/" ch then
    (operatorCase ch ["/="; "/"]
            [("/", TOKEN_DIV); ("/=", TOKEN_DIV_ASSIGN)] l)
  else if isChar "," ch then (punctCase TOKEN_COMMA None l)
  else if isChar ";" ch then (punctCase TOKEN_SEMICOLON None l)
  else if isChar ":" ch then (punctCase TOKEN_COLON None l)
  else if isChar "%" ch then
    (punctCase TOKEN_PERCENT (Some (runes "%")) l)
  else if isChar "&" ch then
    (operatorCase ch ["&&"; "&"]
            [("&&", TOKEN_AND); ("&", TOKEN_AMP)] l)
  else if isChar "|" ch then
    (operatorCase ch ["||"; "|"]
            [("||", TOKEN_OR); ("|", TOKEN_PIPE)] l)
  else (Returns (Err (ErrUnknown ch), l)).

Lemma NextF_unfold (n : nat) (l0 : Lexer) :
  NextF U Scan (S n) l0 =
    match pendingOf (enter l0) with
    | Some t => Some (Returns (Tok t, clearIndent (enter l0)))
    | None =>
        match buf l0 with
        | [] => Some (retNewToken (enter l0) TOKEN_EOF None)
        | ch :: _ =>
            if (ch =? newline)%Z then
              match newlineStep (enter l0) with
              | Returns l3 => NextF U Scan n l3
              | Panics msg => Some (Panics msg)
              end
            else if IsSpace U ch then
              match skipWhiteChars U (enter l0) with
              | Returns (_, l1) => NextF U Scan n l1
              | Panics msg => Some (Panics msg)
              end
            else Some (leafCase (enter l0) ch)
        end
    end.
Proof.
  cbn [NextF]; unfold pendingOf, clearIndent, newlineStep, leafCase, enter.
  cbn [buf spare indentsStack tokenIndent skipped curTokenPos].
  destruct (buf l0) as [|ch b]; [reflexivity|].
  destruct (if negb (ch =? newline)%Z then tokenIndent l0 else None); [reflexivity|].
  destruct (ch =? newline)%Z; [reflexivity|].
  destruct (IsSpace U ch); [reflexivity|].
  destruct (IsLetter U ch); [reflexivity|].
  repeat match goal with
         | |- context [if isChar ?c ch then _ else _] =>
             destruct (isChar c ch); [reflexivity|]
         | |- context [if IsNumber U ch then _ else _] =>
             destruct (IsNumber U ch); [reflexivity|]
         | |- context [if (ch =? 34)%Z then _ else _] =>
             destruct (ch =? 34)%Z; [reflexivity|]
         end.
  reflexivity.
Qed.

(** [moved k l l']: [l'] is [l] with the first [k] characters of the buffer
    consumed and counted, nothing else changed. *)
Definition moved (k : nat) (l l' : Lexer) : Prop :=
  k <= length (buf l)
  /\ buf l' = skipn k (buf l)
  /\ skipped l' = (skipped l + Z.of_nat k)%Z
  /\ spare l' = spare l
  /\ indentsStack l' = indentsStack l
  /\ tokenIndent l' = tokenIndent l
  /\ curTokenPos l' = curTokenPos l.

Lemma moved_refl (l : Lexer) : moved 0 l l.
Proof. unfold moved; cbn; repeat split; lia. Qed.

Lemma moved_trans (k j : nat) (l l1 l2 : Lexer) :
  moved k l l1 -> moved j l1 l2 -> moved (k + j) l l2.
Proof.
  intros (H1 & H2 & H3 & H4 & H5 & H6 & H7) (G1 & G2 & G3 & G4 & G5 & G6 & G7).
  rewrite H2, length_skipn in G1.
  unfold moved; repeat split; try congruence; try lia.
  rewrite G2, H2, skipn_skipn; f_equal; lia.
Qed.

Lemma skipBy_moved (n : nat) (l l' : Lexer) :
  skipBy n l = Returns l' -> moved n l l'.
Proof.
  unfold skipBy; destruct (n <=? length (buf l))%nat eqn:E; [|discriminate].
  apply Nat.leb_le in E; intros H; inversion H; subst.
  unfold moved, setBuf; cbn; repeat split; auto.
Qed.

Lemma skipBy_returns (n : nat) (l : Lexer) :
  n <= length (buf l) -> exists l', skipBy n l = Returns l'.
Proof.
  intros H; unfold skipBy; apply Nat.leb_le in H; rewrite H; eauto.
Qed.

Lemma sliceTo_returns (n : nat) (l : Lexer) :
  n <= length (buf l) + length (spare l) -> exists pre, sliceTo n l = Returns pre.
Proof.
  intros H; unfold sliceTo; apply Nat.leb_le in H; rewrite H; eauto.
Qed.

Lemma checkAlt_moved (alts : list (list rune)) : forall l alt ok l',
  checkAlt alts l = Returns (alt, ok, l') -> exists k, moved k l l'.
Proof.
  induction alts as [|a alts IH]; intros l alt ok l' H; cbn [checkAlt] in H.
  - inversion H; subst; exists 0; apply moved_refl.
  - destruct (sliceTo (length a) l) as [pre|]; cbn [bind] in H; [|discriminate].
    destruct (runes_eqb _ _); [|eapply IH; eassumption].
    destruct (skipBy (length a) l) as [l1|] eqn:E; cbn [bind] in H; [|discriminate].
    inversion H; subst; eexists; apply skipBy_moved; eassumption.
Qed.

Lemma whitePrefix_le (b : list rune) : whitePrefix U b <= length b.
Proof.
  induction b as [|c b IH]; cbn; [lia|].
  destruct (_ && _); cbn; lia.
Qed.

Lemma wordPrefix_le (b : list rune) : wordPrefix U b <= length b.
Proof.
  induction b as [|c b IH]; cbn; [lia|].
  destruct (_ || _); cbn; lia.
Qed.

Lemma skipWhiteChars_moved (l : Lexer) :
  exists ws l',
    skipWhiteChars U l = Returns (ws, l') /\ moved (whitePrefix U (buf l)) l l'.
Proof.
  unfold skipWhiteChars.
  pose proof (whitePrefix_le (buf l)) as H.
  destruct (sliceTo_returns (whitePrefix U (buf l)) l) as [pre ->]; [lia|].
  destruct (skipBy_returns _ _ H) as [l' E]; rewrite E; cbn [bind].
  exists pre, l'; split; [reflexivity | apply skipBy_moved; assumption].
Qed.

Lemma scanWord_moved (l : Lexer) :
  exists w l',
    scanWord U l = Returns (w, l') /\ moved (wordPrefix U (buf l)) l l'.
Proof.
  unfold scanWord.
  pose proof (wordPrefix_le (buf l)) as H.
  destruct (sliceTo_returns (wordPrefix U (buf l)) l) as [pre ->]; [lia|].
  destruct (skipBy_returns _ _ H) as [l' E]; rewrite E; cbn [bind].
  exists pre, l'; split; [reflexivity | apply skipBy_moved; assumption].
Qed.

Lemma findQuote_bound : forall b i j,
  findQuote b i = inl j -> i <= j /\ j < i + length b.
Proof.
  fix IH 1; intros [|c b] i j H; cbn [findQuote] in H; [discriminate|].
  destruct (c =? 92)%Z.
  - destruct b as [|d b]; [discriminate|].
    apply IH in H; cbn [length]; lia.
  - destruct (c =? 34)%Z.
    + inversion H; subst; cbn [length]; lia.
    + apply IH in H; cbn [length]; lia.
Qed.

Lemma loadEscapedString_moved (l : Lexer) :
  exists r l' k, loadEscapedString l = Returns (r, l') /\ moved k l l'.
Proof.
  unfold loadEscapedString.
  destruct (buf l) as [|c b] eqn:Hb.
  { do 3 eexists; split; [reflexivity | apply moved_refl]. }
  destruct (c =? 34)%Z; [|do 3 eexists; split; [reflexivity | apply moved_refl]].
  destruct (skipBy_returns 1 l) as [l1 E]; [rewrite Hb; cbn; lia|].
  unfold skip; rewrite E; cbn [bind].
  pose proof (skipBy_moved _ _ _ E) as M1.
  destruct (findQuote (buf l1) 0) as [i|e] eqn:Hq.
  - apply findQuote_bound in Hq.
    destruct (sliceTo_returns i l1) as [pre ->]; [lia|]; cbn [bind].
    destruct (skipBy_returns (i + 1) l1) as [l2 E2]; [lia|].
    rewrite E2; cbn [bind]. do 3 eexists; split; [reflexivity|].
    eapply moved_trans; [exact M1 | apply skipBy_moved; exact E2].
  - do 3 eexists; split; [reflexivity | exact M1].
Qed.

(** What a case of [Next] that does not call [Next] again returns. *)
Definition leaf_ok (l : Lexer) (r : result) (l' : Lexer) : Prop :=
  (exists k, moved k l l')
  /\ forall t, r = Tok t ->
       Offset t = curTokenPos l
       /\ Type_ t <> TOKEN_EOF /\ Type_ t <> TOKEN_INDENT.

Lemma retNewToken_leaf (l l1 : Lexer) (k : nat) (ty : TokenType)
    (v : option (list rune)) (r : result) (l' : Lexer) :
  moved k l l1 -> ty <> TOKEN_EOF -> ty <> TOKEN_INDENT ->
  retNewToken l1 ty v = Returns (r, l') -> leaf_ok l r l'.
Proof.
  intros M H1 H2 H; unfold retNewToken, newToken in H; inversion H; subst.
  split; [eauto|]. intros t E; inversion E; subst; cbn.
  destruct M as (_ & _ & _ & _ & _ & _ & ->); auto.
Qed.

Lemma altCase_in (cases : list (string * TokenType)) (alt : list rune)
    (ty : TokenType) :
  altCase cases alt = Some ty -> In ty (map snd cases).
Proof.
  induction cases as [|[a t] cases IH]; cbn; [discriminate|].
  destruct (runes_eqb _ _); [intros H; inversion H; auto | auto].
Qed.

Lemma operatorCase_leaf (ch : rune) (alts : list string)
    (cases : list (string * TokenType)) (l : Lexer) (r : result) (l' : Lexer) :
  Forall (fun ty => ty <> TOKEN_EOF /\ ty <> TOKEN_INDENT) (map snd cases) ->
  operatorCase ch alts cases l = Returns (r, l') -> leaf_ok l r l'.
Proof.
  intros Hc H; unfold operatorCase in H.
  destruct (checkAlt (map runes alts) l) as [[[alt ok] l1]|] eqn:E;
    cbn [bind] in H; [|discriminate].
  destruct (checkAlt_moved _ _ _ _ _ E) as [k M].
  destruct (altCase cases alt) as [ty|] eqn:Ea.
  - apply altCase_in in Ea. rewrite Forall_forall in Hc.
    destruct (Hc _ Ea). eapply retNewToken_leaf; eauto.
  - inversion H; subst; split; [eauto | intros t Ht; discriminate Ht].
Qed.

Lemma punctCase_leaf (ty : TokenType) (v : option (list rune)) (l : Lexer)
    (r : result) (l' : Lexer) :
  ty <> TOKEN_EOF -> ty <> TOKEN_INDENT ->
  punctCase ty v l = Returns (r, l') -> leaf_ok l r l'.
Proof.
  intros H1 H2 H; unfold punctCase, skip in H.
  destruct (skipBy 1 l) as [l1|] eqn:E; cbn [bind] in H; [|discriminate].
  eapply retNewToken_leaf; eauto using skipBy_moved.
Qed.

Lemma keywordCase_type (s : list rune) (ty : TokenType) :
  keywordCase s = Some ty -> ty <> TOKEN_EOF /\ ty <> TOKEN_INDENT.
Proof.
  unfold keywordCase.
  repeat match goal with
         | |- context [if ?c then _ else _] =>
             destruct c; [intros H; inversion H; split; discriminate|]
         end.
  discriminate.
Qed.

Lemma leaf_spec (l : Lexer) (ch : rune) (r : result) (l' : Lexer) :
  leafCase l ch = Returns (r, l') -> leaf_ok l r l'.
Proof.
  unfold leafCase.
  destruct (IsLetter U ch).
  { destruct (scanWord_moved l) as (w & l1 & -> & M); cbn [bind].
    destruct (keywordCase (go_string w)) as [ty|] eqn:Ek.
    - destruct (keywordCase_type _ _ Ek); eapply retNewToken_leaf; eauto.
    - eapply retNewToken_leaf; eauto; discriminate. }
  repeat match goal with
         | |- context [if isChar ?c ch then _ else _] =>
             destruct (isChar c ch);
             [ first
                 [ apply operatorCase_leaf; repeat constructor; discriminate
                 | apply punctCase_leaf; discriminate ]
             | ]
         | |- context [if IsNumber U ch then _ else _] =>
             destruct (IsNumber U ch); [|]
         | |- context [if (ch =? 34)%Z then _ else _] =>
             destruct (ch =? 34)%Z; [|]
         end.
  - (* a number *)
    unfold scanGoToken. destruct (Scan _) as [[tok lit] err].
    destruct (skipBy (length lit) l) as [l1|] eqn:E; cbn [bind]; [|discriminate].
    pose proof (skipBy_moved _ _ _ E) as M.
    destruct err as [msg|].
    + intros H; inversion H; subst; split; [eauto | intros t Ht; discriminate Ht].
    + unfold fromGoToken; destruct tok;
        try (eapply retNewToken_leaf; eauto; discriminate).
      intros H; inversion H; subst; split; [eauto | intros t Ht; discriminate Ht].
  - (* a string *)
    destruct (loadEscapedString_moved l) as (x & l1 & k & -> & M); cbn [bind].
    destruct x as [str|e].
    + eapply retNewToken_leaf; eauto; discriminate.
    + intros H; inversion H; subst; split; [eauto | intros t Ht; discriminate Ht].
  - intros H; inversion H; subst; split;
      [exists 0; apply moved_refl | intros t Ht; discriminate Ht].
Qed.

(** The postponed indent token is an INDENT token of a position already
    passed. *)
Definition wf (l : Lexer) : Prop :=
  forall t, tokenIndent l = Some t ->
    Type_ t = TOKEN_INDENT /\ (Offset t <= skipped l)%Z.

(** The least offset the next token can have. *)
Definition lower (l : Lexer) : Z :=
  match tokenIndent l with Some t => Offset t | None => skipped l end.

(** [consumed l l']: what is left in [l'] is a suffix of the buffer of [l],
    and [skipped] has grown by the length of what is gone. *)
Definition consumed (l l' : Lexer) : Prop :=
  exists pre,
    buf l = (pre ++ buf l')%list
    /\ skipped l' = (skipped l + Z.of_nat (length pre))%Z
    /\ spare l' = spare l
    /\ indentsStack l' = indentsStack l.

Lemma moved_consumed (k : nat) (l0 l l' : Lexer) :
  buf l = buf l0 -> skipped l = skipped l0 -> spare l = spare l0 ->
  indentsStack l = indentsStack l0 ->
  moved k l l' -> consumed l0 l'.
Proof.
  intros E1 E2 E3 E4 (H1 & H2 & H3 & H4 & H5 & _).
  exists (firstn k (buf l)); repeat split; try congruence.
  - rewrite H2, firstn_skipn; congruence.
  - rewrite length_firstn, Nat.min_l by assumption; congruence.
Qed.

Lemma consumed_trans (l l1 l2 : Lexer) :
  consumed l l1 -> consumed l1 l2 -> consumed l l2.
Proof.
  intros (p & H1 & H2 & H3 & H4) (q & G1 & G2 & G3 & G4).
  exists (p ++ q)%list; repeat split; try congruence.
  - rewrite H1, G1, app_assoc; reflexivity.
  - rewrite length_app; lia.
Qed.

Lemma newlineStep_spec (l l3 : Lexer) :
  newlineStep l = Returns l3 ->
  exists k ws,
    1 <= k /\ moved k l (mkLexer (buf l3) (spare l3) (indentsStack l3)
                           (tokenIndent l) (skipped l3) (curTokenPos l3))
    /\ tokenIndent l3 = Some (mkToken TOKEN_INDENT (curTokenPos l) ws).
Proof.
  unfold newlineStep, skip; intros H.
  destruct (skipBy 1 l) as [l1|] eqn:E; cbn [bind] in H; [|discriminate].
  destruct (skipWhiteChars_moved l1) as (ws & l2 & E2 & M2).
  rewrite E2 in H; cbn [bind] in H; inversion H; subst; clear H.
  pose proof (moved_trans _ _ _ _ _ (skipBy_moved _ _ _ E) M2) as M.
  exists (1 + whitePrefix U (buf l1)), (Some (go_string ws)).
  split; [lia|]. cbn [buf spare indentsStack tokenIndent skipped curTokenPos].
  destruct M as (H1 & H2 & H3 & H4 & H5 & H6 & H7).
  split; [unfold moved; cbn; repeat split; auto|].
  unfold newToken; rewrite H7; reflexivity.
Qed.

Lemma newlineStep_returns (l : Lexer) :
  buf l <> [] -> exists l3, newlineStep l = Returns l3.
Proof.
  intros Hb; unfold newlineStep, skip.
  destruct (skipBy_returns 1 l) as [l1 ->];
    [destruct (buf l); [contradiction | cbn; lia]|].
  cbn [bind]. destruct (skipWhiteChars_moved l1) as (ws & l2 & -> & _).
  cbn [bind]; eauto.
Qed.

Lemma NextF_inv (n : nat) : forall l0 r l',
  NextF U Scan n l0 = Some (Returns (r, l')) ->
  consumed l0 l'
  /\ (wf l0 ->
      wf l'
      /\ forall t, r = Tok t ->
           (lower l0 <= Offset t <= lower l')%Z
           /\ (Type_ t = TOKEN_EOF ->
               buf l' = [] /\ tokenIndent l' = None
               /\ curTokenPos l' = skipped l'
               /\ t = mkToken TOKEN_EOF (skipped l') None)).
Proof.
  induction n as [|n IH]; intros l0 r l' H; [discriminate|].
  rewrite NextF_unfold in H.
  destruct (pendingOf (enter l0)) as [t0|] eqn:Hp.
  { (* the postponed indent token *)
    inversion H; subst; clear H.
    assert (Ht : tokenIndent l0 = Some t0).
    { unfold pendingOf, enter in Hp; cbn in Hp.
      destruct (buf l0); [assumption|].
      destruct (negb _); [assumption | discriminate]. }
    split.
    - exists []; unfold clearIndent, enter; cbn; repeat split; lia.
    - intros W; destruct (W _ Ht) as [W1 W2]. split.
      + intros t E; discriminate E.
      + intros t E; inversion E; subst t0; unfold lower; rewrite Ht; cbn.
        split; [lia | intros F; congruence]. }
  assert (Hnl : forall c b, buf l0 = c :: b -> (c =? newline)%Z = false ->
                tokenIndent l0 = None).
  { intros c b Hb Hc; unfold pendingOf, enter in Hp; cbn in Hp.
    rewrite Hb, Hc in Hp; exact Hp. }
  destruct (buf l0) as [|ch b] eqn:Hb.
  { (* the end of input *)
    assert (Ht : tokenIndent l0 = None).
    { unfold pendingOf, enter in Hp; cbn in Hp; rewrite Hb in Hp; exact Hp. }
    unfold retNewToken, newToken in H; inversion H; subst; clear H.
    split.
    - exists []; unfold enter; cbn; repeat split; auto; lia.
    - intros W; split.
      + intros t E; unfold enter in E; cbn in E; congruence.
      + intros t E; inversion E; subst t; unfold lower, enter; cbn.
        rewrite Ht; split; [lia|]. intros _; auto. }
  destruct (ch =? newline)%Z eqn:Hch.
  { (* a newline *)
    destruct (newlineStep (enter l0)) as [l3|] eqn:E3; [|discriminate].
    destruct (newlineStep_spec _ _ E3) as (k & ws & Hk & M & Ht3).
    destruct (IH _ _ _ H) as [C3 W3].
    assert (C0 : consumed l0 l3).
    { apply (moved_consumed k l0 (enter l0)) in M; try reflexivity.
      destruct M as (p & ? & ? & ? & ?); exists p; auto. }
    split; [eapply consumed_trans; eassumption|].
    intros W.
    assert (Hs : (skipped l0 <= skipped l3)%Z).
    { destruct C0 as (p & _ & -> & _); lia. }
    assert (W3' : wf l3).
    { intros t E; rewrite Ht3 in E; inversion E; subst; cbn.
      split; [reflexivity | assumption]. }
    destruct (W3 W3') as [W' Hr]; split; [assumption|].
    intros t E; destruct (Hr t E) as [Ho He]; split; [|assumption].
    assert (lower l0 <= lower l3)%Z; [|lia].
    unfold lower at 2; rewrite Ht3; cbn.
    unfold lower; destruct (tokenIndent l0) as [t0|] eqn:E0; [|lia].
    destruct (W _ E0); assumption. }
  specialize (Hnl _ _ eq_refl Hch).
  destruct (IsSpace U ch).
  { (* other whitespace *)
    destruct (skipWhiteChars_moved (enter l0)) as (ws & l1 & E1 & M).
    rewrite E1 in H.
    destruct (IH _ _ _ H) as [C1 W1].
    assert (C0 : consumed l0 l1)
      by (apply (moved_consumed _ l0 (enter l0)) in M; auto).
    split; [eapply consumed_trans; eassumption|].
    intros W.
    assert (Ht1 : tokenIndent l1 = None).
    { destruct M as (_ & _ & _ & _ & _ & -> & _); exact Hnl. }
    assert (W1' : wf l1) by (intros t E; congruence).
    destruct (W1 W1') as [W' Hr]; split; [assumption|].
    intros t E; destruct (Hr t E) as [Ho He]; split; [|assumption].
    assert (lower l0 <= lower l1)%Z; [|lia].
    unfold lower; rewrite Hnl, Ht1.
    destruct C0 as (p & _ & -> & _); lia. }
  (* the other cases *)
  inversion H as [H']; clear H.
  destruct (leaf_spec _ _ _ _ H') as [[k M] Hr].
  assert (C0 : consumed l0 l')
    by (apply (moved_consumed _ l0 (enter l0)) in M; auto).
  split; [assumption|].
  assert (Ht' : tokenIndent l' = None).
  { destruct M as (_ & _ & _ & _ & _ & -> & _); exact Hnl. }
  intros W; split; [intros t E; congruence|].
  intros t E; destruct (Hr t E) as (Ho & He & _).
  unfold lower; rewrite Hnl, Ht', Ho; cbn.
  destruct C0 as (p & _ & -> & _).
  split; [lia | intros F; contradiction].
Qed.

Lemma whitePrefix_pos (ch : rune) (b : list rune) :
  IsSpace U ch = true -> (ch =? newline)%Z = false ->
  1 <= whitePrefix U (ch :: b).
Proof. intros H1 H2; cbn; rewrite H1, H2; cbn; lia. Qed.

Lemma rich_NextF_enough (n : nat) : forall l0,
  length (buf l0) < n -> NextF U Scan n l0 <> None.
Proof.
  induction n as [|n IH]; intros l0 Hn; [lia|].
  rewrite NextF_unfold.
  destruct (pendingOf (enter l0)); [discriminate|].
  destruct (buf l0) as [|ch b] eqn:Hb; [discriminate|].
  destruct (ch =? newline)%Z eqn:Hch.
  - destruct (newlineStep (enter l0)) as [l3|] eqn:E3; [|discriminate].
    destruct (newlineStep_spec _ _ E3) as (k & ws & Hk & M & _).
    apply IH. destruct M as (M1 & M2 & _); cbn [buf enter] in M1, M2.
    rewrite M2, length_skipn; rewrite Hb in *; cbn [length] in *; lia.
  - destruct (IsSpace U ch) eqn:Hsp; [|discriminate].
    destruct (skipWhiteChars_moved (enter l0)) as (ws & l1 & -> & M).
    apply IH. destruct M as (M1 & M2 & _); cbn [buf enter] in M1, M2.
    pose proof (whitePrefix_pos ch b Hsp Hch).
    rewrite M2, length_skipn; rewrite Hb in *; cbn [length] in *; lia.
Qed.

Lemma NextF_S (n : nat) : forall l o,
  NextF U Scan n l = Some o -> NextF U Scan (S n) l = Some o.
Proof.
  induction n as [|n IH]; intros l o H; [discriminate|].
  rewrite NextF_unfold in H; rewrite NextF_unfold.
  destruct (pendingOf (enter l)); [assumption|].
  destruct (buf l) as [|ch b]; [assumption|].
  destruct (ch =? newline)%Z.
  - destruct (newlineStep (enter l)); [apply IH|]; assumption.
  - destruct (IsSpace U ch); [|assumption].
    destruct (skipWhiteChars U (enter l)) as [[ws l1]|]; [apply IH|]; assumption.
Qed.

Lemma NextF_le (n m : nat) (l : Lexer) (o : outcome (result * Lexer)) :
  n <= m -> NextF U Scan n l = Some o -> NextF U Scan m l = Some o.
Proof. induction 1; auto using NextF_S. Qed.

(** Any fuel above the length of the buffer gives what [Next] gives. *)
Lemma Next_fuel (n : nat) (l : Lexer) :
  length (buf l) < n -> NextF U Scan n l = Next U Scan l.
Proof.
  intros H; unfold Next.
  destruct (NextF U Scan (length (buf l) + 1) l) as [o|] eqn:E.
  - apply NextF_le with (n := length (buf l) + 1); [lia | assumption].
  - exfalso; revert E; apply rich_NextF_enough; lia.
Qed.

(** The lexers one gets from [NewLexer] by calls of [Next] that return. *)
Inductive reachable : Lexer -> Prop :=
| reach_new (b sp : list rune) : reachable (NewLexer b sp)
| reach_next (l : Lexer) (r : result) (l' : Lexer) :
    reachable l -> Next U Scan l = Some (Returns (r, l')) -> reachable l'.

Lemma reachable_wf (l : Lexer) : reachable l -> wf l.
Proof.
  induction 1 as [b sp | l r l' _ IH H].
  - intros t E; discriminate E.
  - destruct (NextF_inv _ _ _ _ H) as [_ W]; apply (W IH).
Qed.

(** The characters an operator of one or two characters starts with. *)
Definition opStart (ch : rune) : bool :=
  isChar "=" ch || isChar "!" ch || isChar "+" ch || isChar "-" ch
  || isChar "<" ch || isChar ">" ch || isChar "*" ch || isChar "/" ch
  || isChar "&" ch || isChar "|" ch.

(** The literal the scanner hands back is part of what it was given. *)
Definition scanner_ok : Prop :=
  forall code, length (snd (fst (Scan code))) <= length code.

Lemma checkAlt_safe (alts : list (list rune)) : forall l,
  Forall (fun a => length a <= length (buf l)) alts ->
  exists r, checkAlt alts l = Returns r.
Proof.
  induction alts as [|a alts IH]; intros l H; cbn [checkAlt]; [eauto|].
  inversion H as [|? ? Ha Hr]; subst.
  destruct (sliceTo_returns (length a) l) as [pre ->]; [lia|]; cbn [bind].
  destruct (runes_eqb _ _); [|apply IH; assumption].
  destruct (skipBy_returns _ _ Ha) as [l' ->]; cbn [bind]; eauto.
Qed.

Lemma operatorCase_safe (ch : rune) (alts : list string)
    (cases : list (string * TokenType)) (l : Lexer) :
  Forall (fun a => length a <= length (buf l)) (map runes alts) ->
  exists r l', operatorCase ch alts cases l = Returns (r, l').
Proof.
  intros H; destruct (checkAlt_safe _ _ H) as [[[alt ok] l1] E].
  unfold operatorCase; rewrite E; cbn [bind].
  destruct (altCase cases alt); unfold retNewToken; eauto.
Qed.

Lemma punctCase_safe (ty : TokenType) (v : option (list rune)) (l : Lexer) :
  1 <= length (buf l) -> exists r l', punctCase ty v l = Returns (r, l').
Proof.
  intros H; unfold punctCase, skip.
  destruct (skipBy_returns _ _ H) as [l' ->]; cbn [bind].
  unfold retNewToken; eauto.
Qed.

Lemma leaf_safe (l : Lexer) (ch : rune) (b : list rune) :
  scanner_ok -> buf l = ch :: b -> opStart (last (ch :: b) 0%Z) = false ->
  exists r l', leafCase l ch = Returns (r, l').
Proof.
  intros Hs Hb Hop; unfold leafCase.
  assert (Hlen : opStart ch = true -> 2 <= length (buf l)).
  { intros E; rewrite Hb; destruct b; [cbn in Hop; congruence | cbn; lia]. }
  assert (H1 : 1 <= length (buf l)) by (rewrite Hb; cbn; lia).
  destruct (IsLetter U ch).
  { destruct (scanWord_moved l) as (w & l1 & -> & M); cbn [bind].
    destruct (keywordCase (go_string w)); unfold retNewToken; eauto. }
  repeat match goal with
         | |- context [if isChar ?c ch then _ else _] =>
             let E := fresh "E" in
             destruct (isChar c ch) eqn:E;
             [ first
                 [ apply punctCase_safe; exact H1
                 | apply operatorCase_safe;
                   assert (2 <= length (buf l))
                     by (apply Hlen; unfold opStart; rewrite E;
                         repeat rewrite orb_true_r; reflexivity);
                   repeat constructor; cbn; lia ]
             | ]
         | |- context [if IsNumber U ch then _ else _] =>
             destruct (IsNumber U ch); [|]
         | |- context [if (ch =? 34)%Z then _ else _] =>
             destruct (ch =? 34)%Z; [|]
         end.
  - (* a number *)
    unfold scanGoToken.
    pose proof (Hs (map (fun r => (r mod 256)%Z) (buf l))) as Hl.
    destruct (Scan _) as [[tok lit] err]; cbn [fst snd] in Hl.
    rewrite length_map in Hl.
    destruct (skipBy_returns _ _ Hl) as [l1 ->]; cbn [bind].
    destruct err; [eauto|].
    unfold fromGoToken, retNewToken; destruct tok; eauto.
  - (* a string *)
    destruct (loadEscapedString_moved l) as (x & l1 & k & -> & M); cbn [bind].
    destruct x; unfold retNewToken; eauto.
  - eauto.
Qed.

Lemma opStart_skipn (k : nat) : forall b,
  opStart (last b 0%Z) = false -> opStart (last (skipn k b) 0%Z) = false.
Proof.
  induction k as [|k IH]; intros b H; [exact H|].
  destruct b as [|c b]; [exact H|]. cbn [skipn]; apply IH.
  destruct b; [reflexivity | exact H].
Qed.

Lemma NextF_safe (n : nat) : forall l0 o,
  scanner_ok -> opStart (last (buf l0) 0%Z) = false ->
  NextF U Scan n l0 = Some o -> exists r l', o = Returns (r, l').
Proof.
  induction n as [|n IH]; intros l0 o Hs Hop H; [discriminate|].
  rewrite NextF_unfold in H.
  destruct (pendingOf (enter l0)); [inversion H; eauto|].
  destruct (buf l0) as [|ch b] eqn:Hb; [inversion H; unfold retNewToken; eauto|].
  destruct (ch =? newline)%Z.
  - destruct (newlineStep_returns (enter l0)) as [l3 E3];
      [cbn [enter buf]; rewrite Hb; discriminate|].
    rewrite E3 in H.
    destruct (newlineStep_spec _ _ E3) as (k & ws & _ & (_ & M & _) & _).
    cbn [enter buf] in M; apply IH in H; auto.
    rewrite M, Hb; apply opStart_skipn; exact Hop.
  - destruct (IsSpace U ch).
    + destruct (skipWhiteChars_moved (enter l0)) as (ws & l1 & E1 & (_ & M & _)).
      rewrite E1 in H; cbn [enter buf] in M; apply IH in H; auto.
      rewrite M; apply opStart_skipn; rewrite Hb; exact Hop.
    + inversion H; subst; apply leaf_safe with (b := b); auto.
Qed.

(** ** What [Next] shows on every input *)

(** X6: [Next] of [lexer.go] always comes back, with a result or a panic:
    each of its calls to itself has consumed at least one character, so
    their depth never exceeds the length of the buffer plus one. *)
Theorem Next_comes_back (l : Lexer) :
  exists o, Next U Scan l = Some o.
Proof.
  unfold Next; destruct (NextF U Scan (length (buf l) + 1) l) as [o|] eqn:E;
    [eauto|].
  exfalso; revert E; apply rich_NextF_enough; lia.
Qed.

(** X7: whatever [Next] returns, a token or an error, it has taken a
    prefix off the buffer, [skipped] has grown by exactly the length of that
    prefix, and the backing array and [indentsStack] are as before. *)
Theorem Next_counts_what_it_takes (l : Lexer) (r : result) (l' : Lexer) :
  Next U Scan l = Some (Returns (r, l')) ->
  exists pre,
    buf l = (pre ++ buf l')%list
    /\ skipped l' = (skipped l + Z.of_nat (length pre))%Z
    /\ spare l' = spare l
    /\ indentsStack l' = indentsStack l.
Proof. intros H; apply NextF_inv in H; exact (proj1 H). Qed.

(** X8: the tokens of a lexer made by [NewLexer] come in the order of the
    text: the offset of a token is never below the offset of the token
    before it. *)
Theorem offsets_ascend (l : Lexer) (t t' : Token) (l' l'' : Lexer) :
  reachable l ->
  Next U Scan l = Some (Returns (Tok t, l')) ->
  Next U Scan l' = Some (Returns (Tok t', l'')) ->
  (Offset t <= Offset t')%Z.
Proof.
  intros R H H'; apply reachable_wf in R.
  destruct (NextF_inv _ _ _ _ H) as [_ W]; destruct (W R) as [W' Ht].
  destruct (NextF_inv _ _ _ _ H') as [_ V]; destruct (V W') as [_ Ht'].
  destruct (Ht _ eq_refl) as [? _]; destruct (Ht' _ eq_refl) as [? _]; lia.
Qed.

(** X9: once a lexer made by [NewLexer] has returned the EOF token, every
    further call returns the same token and leaves the lexer as it is. *)
Theorem rich_eof_is_final (l : Lexer) (t : Token) (l' : Lexer) :
  reachable l ->
  Next U Scan l = Some (Returns (Tok t, l')) ->
  Type_ t = TOKEN_EOF ->
  Next U Scan l' = Some (Returns (Tok t, l')).
Proof.
  intros R H E; apply reachable_wf in R.
  destruct (NextF_inv _ _ _ _ H) as [_ W]; destruct (W R) as [_ Ht].
  destruct (Ht _ eq_refl) as [_ He]; destruct (He E) as (Hb & Hi & Hc & ->).
  destruct l' as [b sp st ti sk cp]; cbn in *; subst.
  reflexivity.
Qed.

(** X10: [Next] does not panic on a buffer whose last character is not one
    of [= ! + - < > * / & |], whatever follows the buffer in its backing
    array, as long as the scanner's literal is no longer than the text it
    was given. *)
Theorem Next_does_not_panic (l : Lexer) :
  scanner_ok ->
  opStart (last (buf l) 0%Z) = false ->
  exists r l', Next U Scan l = Some (Returns (r, l')).
Proof.
  intros Hs Hop; unfold Next.
  destruct (NextF U Scan (length (buf l) + 1) l) as [o|] eqn:E.
  - apply NextF_safe in E; auto. destruct E as (r & l' & ->); eauto.
  - exfalso; revert E; apply rich_NextF_enough; lia.
Qed.

(** ** Lines and indents *)

Definition whiteChar (c : rune) : Prop :=
  IsSpace U c && negb (c =? newline)%Z = true.

(** The whitespace run ends here. *)
Definition stops (rest : list rune) : Prop :=
  match rest with
  | [] => True
  | c :: _ => IsSpace U c && negb (c =? newline)%Z = false
  end.

(** The line has something on it, or the text ends. *)
Definition starts_line (rest : list rune) : Prop :=
  match rest with
  | [] => True
  | c :: _ => (c =? newline)%Z = false /\ IsSpace U c = false
  end.

Lemma whitePrefix_run (ws rest : list rune) :
  Forall whiteChar ws -> stops rest -> whitePrefix U (ws ++ rest) = length ws.
Proof.
  intros Hw Hs; induction Hw as [|c ws Hc _ IH]; cbn [app length whitePrefix].
  - destruct rest as [|c rest]; [reflexivity|].
    cbn [whitePrefix]; cbn in Hs; rewrite Hs; reflexivity.
  - unfold whiteChar in Hc; rewrite Hc, IH; reflexivity.
Qed.

Lemma white_split (b : list rune) :
  exists ws rest, b = (ws ++ rest)%list /\ Forall whiteChar ws /\ stops rest.
Proof.
  induction b as [|c b (ws & rest & E & Hw & Hs)].
  - exists [], []; cbn; auto.
  - destruct (IsSpace U c && negb (c =? newline)%Z) eqn:Hc.
    + exists (c :: ws), rest; subst; cbn; auto.
    + exists [], (c :: b); cbn; auto.
Qed.

Lemma newlineStep_line (l : Lexer) (ws rest : list rune) :
  buf l = newline :: (ws ++ rest)%list -> Forall whiteChar ws -> stops rest ->
  newlineStep l =
    Returns (mkLexer rest (spare l) (indentsStack l)
               (Some (mkToken TOKEN_INDENT (curTokenPos l) (Some (go_string ws))))
               (skipped l + 1 + Z.of_nat (length ws))%Z (curTokenPos l)).
Proof.
  intros Hb Hw Hs; unfold newlineStep, skip.
  change (skipBy 1 l) with (skipBy (length [newline]) l).
  rewrite (@skipBy_prefix l [newline] (ws ++ rest)%list Hb); cbn [bind].
  set (l1 := setBuf (ws ++ rest)%list (Z.of_nat (length [newline])) l).
  assert (H1 : buf l1 = (ws ++ rest)%list) by reflexivity.
  unfold skipWhiteChars; rewrite H1, whitePrefix_run by assumption.
  rewrite (@sliceTo_prefix l1 ws rest H1), (@skipBy_prefix l1 ws rest H1);
    cbn [bind].
  reflexivity.
Qed.

Lemma pendingOf_newline (l : Lexer) (b : list rune) :
  buf l = newline :: b -> pendingOf (enter l) = None.
Proof. intros E; unfold pendingOf, enter; cbn; rewrite E; reflexivity. Qed.

(** With a newline first, neither the postponed indent nor [curTokenPos]
    matters. *)
Lemma Next_newline_indep (l l' : Lexer) (b : list rune) :
  buf l = newline :: b -> buf l' = buf l -> spare l' = spare l ->
  indentsStack l' = indentsStack l -> skipped l' = skipped l ->
  Next U Scan l' = Next U Scan l.
Proof.
  intros Hb E1 E2 E3 E4; unfold Next; rewrite E1, Nat.add_1_r, !NextF_unfold.
  rewrite (pendingOf_newline l b Hb), (pendingOf_newline l' b) by congruence.
  rewrite E1, Hb; change (newline =? newline)%Z with true; cbv iota.
  destruct (white_split b) as (ws & rest & -> & Hw & Hs).
  rewrite (newlineStep_line (enter l) ws rest), (newlineStep_line (enter l') ws rest)
    by (assumption || (cbn; congruence)).
  cbn; rewrite E2, E3, E4; reflexivity.
Qed.

(** X11: an INDENT token is made for a line only when the line has
    something on it: after a newline and a run of whitespace that ends in
    another newline, [Next] goes on as if the text began at that second
    newline; the postponed indent of the blank line is dropped. *)
Theorem blank_line_has_no_indent (l : Lexer) (ws rest : list rune)
    (ti : option Token) (cp : Z) :
  buf l = newline :: (ws ++ newline :: rest)%list ->
  Forall whiteChar ws ->
  Next U Scan l =
    Next U Scan (mkLexer (newline :: rest) (spare l) (indentsStack l) ti
                   (skipped l + 1 + Z.of_nat (length ws))%Z cp).
Proof.
  intros Hb Hw.
  assert (Hs : stops (newline :: rest))
    by (unfold stops; change (newline =? newline)%Z with true;
        apply andb_false_r).
  unfold Next at 1; rewrite Nat.add_1_r, NextF_unfold.
  rewrite (pendingOf_newline l _ Hb), Hb.
  change (newline =? newline)%Z with true; cbv iota.
  rewrite (newlineStep_line (enter l) ws (newline :: rest)) by assumption.
  rewrite Next_fuel by (cbn; rewrite length_app; cbn; lia).
  apply Next_newline_indep with (b := rest); reflexivity.
Qed.

(** X12: the INDENT token of a line that has something on it, or of the
    end of the text: it has the offset of the newline before the line and
    carries the whitespace the line starts with, and what is left in the
    buffer is the line without that whitespace. *)
Theorem indent_token_of_a_line (l : Lexer) (ws rest : list rune) :
  buf l = newline :: (ws ++ rest)%list ->
  Forall whiteChar ws ->
  starts_line rest ->
  Next U Scan l =
    Some (Returns
      (Tok (mkToken TOKEN_INDENT (skipped l) (Some (go_string ws))),
       mkLexer rest (spare l) (indentsStack l) None
         (skipped l + 1 + Z.of_nat (length ws))%Z
         (skipped l + 1 + Z.of_nat (length ws))%Z)).
Proof.
  intros Hb Hw Hl.
  assert (Hs : stops rest).
  { destruct rest as [|c rest]; [exact I|].
    unfold stops; destruct Hl as [_ ->]; reflexivity. }
  unfold Next; rewrite Nat.add_1_r, NextF_unfold.
  rewrite (pendingOf_newline l _ Hb), Hb.
  change (newline =? newline)%Z with true; cbv iota.
  rewrite (newlineStep_line (enter l) ws rest) by assumption.
  rewrite Next_fuel by (cbn; rewrite length_app; cbn; lia).
  unfold Next; rewrite Nat.add_1_r, NextF_unfold.
  unfold pendingOf, enter, clearIndent; cbn.
  destruct rest as [|c rest]; [reflexivity|].
  destruct Hl as [-> _]; reflexivity.
Qed.

(** ** Operators of two characters *)

(** The operators of two characters, with the token types whose comments
    in [lexer.go] name them. *)
Definition twoCharOps : list (string * TokenType) :=
  [("==", TOKEN_EQUALS); ("!=", TOKEN_NEQUALS); ("<=", TOKEN_EQ_LT);
   (">=", TOKEN_EQ_GT); ("+=", TOKEN_PLUS_ASSIGN); ("++", TOKEN_INCREMENT);
   ("-=", TOKEN_MINUS_ASSIGN); ("--", TOKEN_DECREMENT);
   ("*=", TOKEN_MUL_ASSIGN); ("/=", TOKEN_DIV_ASSIGN); ("<<", TOKEN_SHL);
   (">>", TOKEN_SHR); ("<-", TOKEN_SEND); ("&&", TOKEN_AND); ("||", TOKEN_OR)].

(** The tables of package [unicode] take no operator character for a
    space, a letter or a number. *)
Definition operators_apart : Prop :=
  forall c, opStart c = true ->
    IsSpace U c = false /\ IsLetter U c = false /\ IsNumber U c = false.

Lemma Next_leaf (l : Lexer) (ch : rune) (b : list rune) :
  tokenIndent l = None -> buf l = ch :: b ->
  (ch =? newline)%Z = false -> IsSpace U ch = false ->
  Next U Scan l = Some (leafCase (enter l) ch).
Proof.
  intros Hti Hb Hn Hs; unfold Next; rewrite Nat.add_1_r, NextF_unfold.
  unfold pendingOf at 1; cbn [enter buf tokenIndent].
  rewrite Hb, Hti, Hn, Hs; destruct (negb false); reflexivity.
Qed.

(** X13: an operator of two characters at the head of the buffer is
    returned as one token of its own type, with the operator as its
    value: the longer alternative is tried first. *)
Theorem two_char_operators (op : string) (ty : TokenType) (l : Lexer)
    (rest : list rune) :
  operators_apart ->
  In (op, ty) twoCharOps ->
  tokenIndent l = None ->
  buf l = (runes op ++ rest)%list ->
  Next U Scan l =
    Some (Returns
      (Tok (mkToken ty (skipped l) (Some (runes op))),
       mkLexer rest (spare l) (indentsStack l) None (skipped l + 2)%Z
         (skipped l))).
Proof.
  intros Hp Hin Hti Hb.
  destruct l as [b sp st ti sk cp]; cbn in Hti, Hb; subst ti b.
  cbn in Hin.
  repeat (destruct Hin as [Hin|Hin];
    [ inversion Hin; subst op ty; clear Hin;
      match goal with
      | |- context [(runes ?o ++ rest)%list] =>
          let x := eval cbn in (runes o ++ rest)%list in
          change (runes o ++ rest)%list with x
      end;
      match goal with
      | |- Next _ _ (mkLexer (?c :: ?b) ?x1 ?x2 ?x3 ?x4 ?x5) = _ =>
          destruct (Hp c eq_refl) as (H1 & H2 & H3);
          refine (eq_trans (Next_leaf (mkLexer (c :: b) x1 x2 x3 x4 x5) c b
                              eq_refl eq_refl eq_refl H1) _);
          unfold leafCase; rewrite H2, H3; reflexivity
      end
    | ]).
  contradiction.
Qed.

End WithTables.
(** ** String literals *)

(** What may stand between the quotation marks of a literal: characters
    other than the quotation mark and the backslash, and pairs of a
    backslash and any character. *)
Inductive strBody : list rune -> Prop :=
| body_nil : strBody []
| body_char (c : rune) (s : list rune) :
    c <> 92%Z -> c <> 34%Z -> strBody s -> strBody (c :: s)
| body_escape (c : rune) (s : list rune) :
    strBody s -> strBody (92%Z :: c :: s).

Lemma findQuote_closed (s : list rune) :
  strBody s ->
  forall rest i, findQuote (s ++ 34%Z :: rest) i = inl (i + length s).
Proof.
  induction 1 as [|c s H1 H2 _ IH|c s _ IH]; intros rest i;
    cbn [app findQuote length].
  - cbn; f_equal; lia.
  - apply Z.eqb_neq in H1, H2; rewrite H1, H2, IH; f_equal; lia.
  - change (92 =? 92)%Z with true; cbv iota; rewrite IH; f_equal; lia.
Qed.

Lemma findQuote_open (s : list rune) :
  strBody s ->
  forall i, findQuote s i = inr ErrStringOpen
            /\ findQuote (s ++ [92%Z]) i = inr ErrStringEscape.
Proof.
  induction 1 as [|c s H1 H2 _ IH|c s _ IH]; intros i;
    cbn [app findQuote length].
  - split; reflexivity.
  - apply Z.eqb_neq in H1, H2; rewrite H1, H2; apply IH.
  - change (92 =? 92)%Z with true; cbv iota; apply IH.
Qed.

(** X14: a string literal is returned as it is written: the value is the
    text between the opening quotation mark and the first quotation mark
    that no backslash precedes, with its escape sequences left undecoded,
    and the literal with both quotation marks is consumed. *)
Theorem string_literal_is_raw (l : Lexer) (s rest : list rune) :
  buf l = 34%Z :: (s ++ 34%Z :: rest)%list ->
  strBody s ->
  loadEscapedString l =
    Returns (inl (go_string s),
             mkLexer rest (spare l) (indentsStack l) (tokenIndent l)
               (skipped l + Z.of_nat (length s) + 2)%Z (curTokenPos l)).
Proof.
  intros Hb Hs; unfold loadEscapedString, skip.
  rewrite Hb; change (34 =? 34)%Z with true; cbv iota.
  pose proof (@skipBy_prefix l [34%Z] (s ++ 34%Z :: rest)%list Hb) as X.
  cbn [length] in X; rewrite X; clear X; cbn [bind].
  set (l1 := setBuf (s ++ 34%Z :: rest)%list (Z.of_nat 1) l).
  assert (H1 : buf l1 = (s ++ 34%Z :: rest)%list) by reflexivity.
  assert (H2 : buf l1 = ((s ++ [34%Z]) ++ rest)%list)
    by (rewrite <- app_assoc; exact H1).
  rewrite H1, findQuote_closed by assumption; cbn [Nat.add].
  rewrite (@sliceTo_prefix l1 s _ H1); cbn [bind].
  replace (length s + 1) with (length (s ++ [34%Z])%list)
    by (rewrite length_app; reflexivity).
  rewrite (@skipBy_prefix l1 _ rest H2); cbn [bind].
  unfold setBuf, l1; cbn [buf spare indentsStack tokenIndent skipped curTokenPos].
  cbn [setBuf buf spare indentsStack tokenIndent skipped curTokenPos].
  replace (skipped l + Z.of_nat 1 + Z.of_nat (length (s ++ [34%Z])%list))%Z
    with (skipped l + Z.of_nat (length s) + 2)%Z
    by (rewrite length_app; cbn [length]; lia).
  reflexivity.
Qed.

(** X15: a literal that is not closed is an error, [Unterminated string
    literal], or [Unexpected file end] when the text ends in a backslash
    that escapes nothing; the opening quotation mark is consumed, the
    rest is left in the buffer. *)
Theorem open_string_literal (l : Lexer) (s tail : list rune) :
  buf l = 34%Z :: (s ++ tail)%list ->
  strBody s ->
  tail = [] \/ tail = [92%Z] ->
  loadEscapedString l =
    Returns (inr (match tail with
                  | [] => ErrStringOpen
                  | _ => ErrStringEscape
                  end),
             mkLexer (s ++ tail) (spare l) (indentsStack l) (tokenIndent l)
               (skipped l + 1)%Z (curTokenPos l)).
Proof.
  intros Hb Hs Ht; unfold loadEscapedString, skip.
  rewrite Hb; change (34 =? 34)%Z with true; cbv iota.
  pose proof (@skipBy_prefix l [34%Z] (s ++ tail)%list Hb) as X.
  cbn [length] in X; rewrite X; clear X; cbn [bind].
  cbn [setBuf buf].
  destruct (findQuote_open s Hs 0) as [F1 F2].
  destruct Ht as [-> | ->].
  - rewrite app_nil_r, F1; reflexivity.
  - rewrite F2; reflexivity.
Qed.

(** ** The token predicates *)

(** X16: every order operator is a comparison operator, the comparison
    operators that are no order operators are [==] and [!=], and no
    comparison operator is a logical operator. *)
Theorem comparison_operators (t : Token) :
  IsCompOp t = true ->
  IsLogicalOp t = false
  /\ (IsOrderOp t = false <->
      Type_ t = TOKEN_EQUALS \/ Type_ t = TOKEN_NEQUALS).
Proof.
  unfold IsCompOp, IsLogicalOp, IsOrderOp.
  destruct (Type_ t); intros H; try discriminate H;
    (split; [reflexivity|]); split; auto;
    try (intros [E|E]; discriminate E); try discriminate.
Qed.

(** ** Instances on Latin-1 text and decimal numbers *)

Lemma digitsPrefix_le (code : list Z) :
  length (digitsPrefix code) <= length code.
Proof.
  induction code as [|c code IH]; cbn; [lia|].
  destruct (between 48%Z 57%Z c); cbn; lia.
Qed.

Lemma decimalScanner_ok : scanner_ok decimalScanner.
Proof.
  intros code; unfold decimalScanner.
  pose proof (digitsPrefix_le code) as H.
  destruct (digitsPrefix code); cbn [fst snd] in *; [cbn; lia | exact H].
Qed.

Lemma isChar_eq (c : string) (ch x : rune) :
  runes c = [x] -> isChar c ch = true -> ch = x.
Proof.
  unfold isChar; intros -> H; apply runes_eqb_eq in H; congruence.
Qed.

Lemma latin1_operators_apart : operators_apart latin1.
Proof.
  intros c H; unfold opStart in H.
  repeat match type of H with
         | (_ || _) = true => apply orb_true_iff in H; destruct H as [H|H]
         end;
    eapply isChar_eq in H; try reflexivity; subst c;
    repeat split; reflexivity.
Qed.

(** The text [if x], nothing behind it in its backing array. *)
Definition if_x : Lexer := NewLexer (runes "if x") [].

Lemma Next_counts_what_it_takes_witness :
  exists pre,
    buf if_x = (pre ++ runes " x")%list
    /\ 2%Z = (skipped if_x + Z.of_nat (length pre))%Z
    /\ @nil rune = spare if_x
    /\ @nil Z = indentsStack if_x.
Proof.
  apply (Next_counts_what_it_takes latin1 decimalScanner if_x
           (Tok (mkToken TOKEN_IF 0 None))
           (mkLexer (runes " x") [] [] None 2 0)).
  reflexivity.
Defined.

Lemma offsets_ascend_witness :
  reachable latin1 decimalScanner if_x
  /\ (Offset (mkToken TOKEN_IF 0 None)
      <= Offset (mkToken TOKEN_WORD 3 (Some (runes "x"))))%Z.
Proof.
  split; [apply reach_new|].
  apply (offsets_ascend latin1 decimalScanner if_x
           (mkToken TOKEN_IF 0 None)
           (mkToken TOKEN_WORD 3 (Some (runes "x")))
           (mkLexer (runes " x") [] [] None 2 0)
           (mkLexer [] [] [] None 4 3)).
  - apply reach_new.
  - reflexivity.
  - reflexivity.
Defined.

Lemma rich_eof_is_final_witness :
  Next latin1 decimalScanner (mkLexer [] [] [] None 0 0) =
    Some (Returns (Tok (mkToken TOKEN_EOF 0 None), mkLexer [] [] [] None 0 0)).
Proof.
  apply (rich_eof_is_final latin1 decimalScanner (NewLexer [] [])
           (mkToken TOKEN_EOF 0 None) (mkLexer [] [] [] None 0 0)).
  - apply reach_new.
  - reflexivity.
  - reflexivity.
Defined.

Lemma Next_does_not_panic_witness :
  exists r l',
    Next latin1 decimalScanner (NewLexer (runes "<=1") []) =
      Some (Returns (r, l')).
Proof.
  apply (Next_does_not_panic latin1 decimalScanner (NewLexer (runes "<=1") [])).
  - exact decimalScanner_ok.
  - reflexivity.
Defined.

Lemma blank_line_has_no_indent_witness :
  Next latin1 decimalScanner
    (NewLexer (newline :: (runes "  " ++ newline :: runes " x")%list) []) =
  Next latin1 decimalScanner
    (mkLexer (newline :: runes " x") [] [] None 3 0).
Proof.
  apply (blank_line_has_no_indent latin1 decimalScanner
           (NewLexer (newline :: (runes "  " ++ newline :: runes " x")%list) [])
           (runes "  ") (runes " x") None 0%Z).
  - reflexivity.
  - repeat constructor.
Defined.

Lemma indent_token_of_a_line_witness :
  Next latin1 decimalScanner
    (NewLexer (newline :: (runes "  " ++ runes "x")%list) []) =
  Some (Returns
    (Tok (mkToken TOKEN_INDENT 0 (Some (runes "  "))),
     mkLexer (runes "x") [] [] None 3 3)).
Proof.
  apply (indent_token_of_a_line latin1 decimalScanner
           (NewLexer (newline :: (runes "  " ++ runes "x")%list) [])
           (runes "  ") (runes "x")).
  - reflexivity.
  - repeat constructor.
  - split; reflexivity.
Defined.

Lemma two_char_operators_witness :
  Next latin1 decimalScanner (NewLexer (runes "<=1") []) =
    Some (Returns
      (Tok (mkToken TOKEN_EQ_LT 0 (Some (runes "<="))),
       mkLexer (runes "1") [] [] None 2 0)).
Proof.
  apply (two_char_operators latin1 decimalScanner "<=" TOKEN_EQ_LT
           (NewLexer (runes "<=1") []) (runes "1")).
  - exact latin1_operators_apart.
  - cbn; tauto.
  - reflexivity.
  - reflexivity.
Defined.

(** A literal whose body is [a], an escaped quotation mark and [b],
    followed by [+]. *)
Definition quoted_input : list rune :=
  [34; 97; 92; 34; 98; 34; 43]%Z.

Lemma string_literal_is_raw_witness :
  loadEscapedString (NewLexer quoted_input []) =
    Returns (inl [97; 92; 34; 98]%Z, mkLexer [43%Z] [] [] None 6 0).
Proof.
  apply (string_literal_is_raw (NewLexer quoted_input [])
           [97; 92; 34; 98]%Z [43%Z]).
  - reflexivity.
  - apply body_char; [discriminate | discriminate |].
    apply body_escape.
    apply body_char; [discriminate | discriminate | apply body_nil].
Defined.

Lemma open_string_literal_witness :
  loadEscapedString (NewLexer [34; 97; 92]%Z []) =
    Returns (inr ErrStringEscape, mkLexer [97; 92]%Z [] [] None 1 0).
Proof.
  apply (open_string_literal (NewLexer [34; 97; 92]%Z []) [97%Z] [92%Z]).
  - reflexivity.
  - apply body_char; [discriminate | discriminate | apply body_nil].
  - right; reflexivity.
Defined.

Lemma comparison_operators_witness :
  IsLogicalOp (mkToken TOKEN_EQUALS 0 None) = false
  /\ (IsOrderOp (mkToken TOKEN_EQUALS 0 None) = false <->
      TOKEN_EQUALS = TOKEN_EQUALS \/ TOKEN_EQUALS = TOKEN_NEQUALS).
Proof.
  apply (comparison_operators (mkToken TOKEN_EQUALS 0 None)); reflexivity.
Defined.

End RichLexerMore.

(** * Further properties of the type negotiator *)

Module NegotiatorMore.
Import Go Negotiator NegotiatorFacts.
Local Open Scope string_scope.
Local Unset Implicit Arguments.

Definition nilDeref : string :=
  "invalid memory address or nil pointer dereference".

(** A Go map read: the value under the key, if there is one. *)
Fixpoint lookup {A : Type} (name : string) (ms : list (string * A)) : option A :=
  match ms with
  | [] => None
  | (n, a) :: ms' => if String.eqb n name then Some a else lookup name ms'
  end.

(** A statement as [CheckTypes] sees it: its [NegotiateTypes], over the
    state of the syntax tree. *)
Definition Stmt (S : Type) : Type := S -> outcome (error * S).

(** [CodeBlock.CheckTypes]. *)
Fixpoint CheckTypes {S : Type} (Statements : list (Stmt S)) (s : S)
  : outcome (error * S) :=
  match Statements with
  | [] => Returns (None, s)
  | stmt :: rest =>
      r <- stmt s ;;
      match fst r with
      | Some e => Returns (Some e, snd r)
      | None => CheckTypes rest (snd r)
      end
  end.

(** [NilExpr]: the literal [nil] with the type negotiated for it. *)
Record NilExpr := mkNilExpr { NilExpr_typ : option Ty }.

Section WithModel.
Variable M : TypeModel.

(** [IsConvertable(what, to)]. *)
Definition IsConvertable {S : Type} (what : TypedExpr S) (to : Ty) (s : S)
  : outcome bool :=
  wt0 <- TypeOf what s ;;
  match wt0 with
  | None => Panics nilDeref
  | Some wt =>
      a <- IsAssignable M to wt ;;
      if a then Returns true
      else if String.eqb (StringOf M (UnderlyingType to))
                (StringOf M (UnderlyingType wt))
      then Returns true
      else
        match to, wt with
        | PointerType to', PointerType wt' =>
            if String.eqb (StringOf M (UnderlyingType wt'))
                 (StringOf M (UnderlyingType to'))
            then Returns true else Returns false
        | _, _ => Returns false
        end
  end.

(** [ExprStmt.NegotiateTypes]: the slot is a local of the call. *)
Definition ExprStmt_NegotiateTypes {S : Type} (Expression : TypedExpr S)
  : Stmt S := fun s =>
  r <- NegotiateExprType M Expression (Some UnknownType) s ;;
  Returns (fst (fst r), snd r).

Definition NilExpr_ApplyType (typ : Ty) (ex : NilExpr)
  : outcome (error * NilExpr) :=
  match KindOf (RootType typ) with
  | KIND_POINTER | KIND_INTERFACE | KIND_MAP | KIND_SLICE | KIND_FUNC =>
      Returns (None, mkNilExpr (Some typ))
  | _ => Returns (Some ("Type " ++ StringOf M typ ++ " can't be set to nil"), ex)
  end.

Definition NilExprE : TypedExpr NilExpr := {|
  TypeOf ex := Returns (Some (nonilTyp (NilExpr_typ ex)));
  ApplyType := NilExpr_ApplyType;
  GuessType ex := Returns (false, Some UnknownType, ex)
|}.

(** [DotSelector.Type()] for [Left.Right]. *)
Definition DotSelector_Type {S : Type} (Left : TypedExpr S) (Right : string)
    (s : S) : outcome Ty :=
  lt <- TypeOf Left s ;;
  match lt with
  | None => Panics nilDeref
  | Some leftType =>
      let leftType :=
        match leftType with PointerType To => To | _ => leftType end in
      match RootType leftType with
      | StructType Members Methods =>
          match lookup Right Members with
          | Some member => Returns member
          | None =>
              match lookup Right Methods with
              | Some method => Returns (FuncDecl_typ method)
              | None => Returns UnknownType
              end
          end
      | IfaceType Methods =>
          match lookup Right Methods with
          | Some method => Returns (FuncDecl_typ method)
          | None => Returns UnknownType
          end
      | UnknownType => Panics "todo"
      | _ => Returns UnknownType
      end
  end.

Definition notAssignable' (t m : Ty) : string :=
  "Types " ++ StringOf M t ++ " and " ++ StringOf M m ++ " aren't assignable".

(** The loop of [NegotiateTupleUnpackAssign] over the targets; the
    members of the tuple from index [i] on are passed along.  The slots
    come back as the loop leaves them. *)
Fixpoint unpackLoop (lhsTypes : list (option Ty)) (members : list Ty)
  : outcome (error * list (option Ty)) :=
  match lhsTypes with
  | [] => Returns (None, [])
  | t :: ts =>
      match members with
      | [] => Panics "index out of range"
      | m :: ms =>
          typ <- firstKnown [t; Some m] ;;
          match typ with
          | None =>
              Returns (Some "Too little information to infer types", t :: ts)
          | Some typ =>
              if negb (Known m)
              then Returns (Some "Unknown type in a tuple", t :: ts)
              else
                match t with
                | None => Panics nilDeref
                | Some t0 =>
                    if Kind_eqb (KindOf t0) KIND_UNKNOWN then
                      (* *t = typ *)
                      r <- unpackLoop ts ms ;;
                      Returns (fst r, Some typ :: snd r)
                    else
                      a <- IsAssignable M t0 m ;;
                      if negb a
                      then Returns (Some (notAssignable' t0 m), t :: ts)
                      else
                        r <- unpackLoop ts ms ;;
                        Returns (fst r, t :: snd r)
                end
          end
      end
  end.

(** [NegotiateTupleUnpackAssign(onlyFuncCalls, lhsTypes, rhs)];
    [isFuncCall] tells whether [rhs] is a [*FuncCallExpr]. *)
Definition NegotiateTupleUnpackAssign {S : Type} (isFuncCall onlyFuncCalls : bool)
    (lhsTypes : list (option Ty)) (rhs : TypedExpr S) (s : S)
  : outcome (error * list (option Ty) * S) :=
  if isFuncCall then
    rt <- TypeOf rhs s ;;
    match rt with
    | None => Panics nilDeref
    | Some (TupleType members) =>
        r <- unpackLoop lhsTypes members ;;
        Returns (fst r, snd r, s)
    | Some _ =>
        Returns
          (Some "Too few values on the right side (function call returns only 1 result)",
           lhsTypes, s)
    end
  else if onlyFuncCalls then Returns (Some "Too few values", lhsTypes, s)
  else
    lt <- TypeOf rhs s ;;
    k <- KnownOf lt ;;
    g <- (if negb k then GuessType rhs s else Returns (true, lt, s)) ;;
    let '(ok, leftTyp, s1) := g in
    if negb ok
    then Returns
           (Some "Couldn't determine type of the right side of the assignment",
            lhsTypes, s1)
    else
      k' <- KnownOf leftTyp ;;
      if negb k'
      then Returns
             (Some "Couldn't determine type of the right side of the assignment",
              lhsTypes, s1)
      else
        let members := [nonilTyp leftTyp; SimpleType SIMPLE_TYPE_BOOL] in
        r <- ApplyType rhs (TupleType members) s1 ;;
        match fst r with
        | Some e => Returns (Some e, lhsTypes, snd r)
        | None =>
            r' <- unpackLoop lhsTypes members ;;
            Returns (fst r', snd r', snd r)
        end.

End WithModel.

Section Facts.
Variable M : TypeModel.

Lemma UnderlyingType_plain (t : Ty) :
  KindOf t <> KIND_CUSTOM -> UnderlyingType t = t.
Proof. destruct t; cbn; intros H; try reflexivity; contradiction. Qed.

Lemma Known_kind (t : Ty) :
  Known t = negb (Kind_eqb (KindOf t) KIND_UNKNOWN).
Proof. destruct t; reflexivity. Qed.

Lemma SimpleID_eqb_eq (a b : SimpleID) : SimpleID_eqb a b = true -> a = b.
Proof.
  destruct a, b; cbn; intros H; try reflexivity; try discriminate H.
  apply Nat.eqb_eq in H; congruence.
Qed.

(** ** Conversions *)

(** X17: an expression converts to the type it has, whatever that type
    is, also where the type is not assignable to itself. *)
Theorem converts_to_its_own_type (S : Type) (what : TypedExpr S) (s : S)
    (wt : Ty) :
  TypeOf what s = Returns (Some wt) ->
  IsConvertable M what wt s = Returns true.
Proof.
  intros HT; unfold IsConvertable; rewrite HT; cbn [bind].
  destruct (IsAssignable_returns M wt wt) as [a ->]; cbn [bind].
  destruct a; [reflexivity|]. rewrite String.eqb_refl; reflexivity.
Qed.

(** X18: a value of a named type converts to the type the name is
    declared as, and a value of that type converts to the named type. *)
Theorem converts_between_name_and_declared_type (S : Type)
    (named plain : TypedExpr S) (s : S) (n : string) (T : Ty)
    (ms : list (string * FuncDecl)) :
  KindOf T <> KIND_CUSTOM ->
  TypeOf named s = Returns (Some (CustomType (mkTypeDecl n T ms))) ->
  TypeOf plain s = Returns (Some T) ->
  IsConvertable M named T s = Returns true
  /\ IsConvertable M plain (CustomType (mkTypeDecl n T ms)) s = Returns true.
Proof.
  intros HK Hn Hp; unfold IsConvertable; rewrite Hn, Hp; cbn [bind].
  split.
  - destruct (IsAssignable_returns M T (CustomType (mkTypeDecl n T ms)))
      as [a ->]; cbn [bind].
    destruct a; [reflexivity|].
    rewrite (UnderlyingType_plain T HK); cbn [UnderlyingType TypeDecl_AliasedType].
    rewrite String.eqb_refl; reflexivity.
  - destruct (IsAssignable_returns M (CustomType (mkTypeDecl n T ms)) T)
      as [a ->]; cbn [bind].
    destruct a; [reflexivity|].
    rewrite (UnderlyingType_plain T HK); cbn [UnderlyingType TypeDecl_AliasedType].
    rewrite String.eqb_refl; reflexivity.
Qed.

(** ** The literal [nil] *)

(** X19: [nil] negotiated against a declared type takes that type when
    the root of the type is a pointer, an interface, a map, a slice or a
    function, and is refused for every other type, a channel included;
    the slot keeps the declared type either way. *)
Theorem nil_takes_declared_type (typ : Ty) :
  Known typ = true ->
  NegotiateExprType M (NilExprE M) (Some typ) (mkNilExpr None) =
    match KindOf (RootType typ) with
    | KIND_POINTER | KIND_INTERFACE | KIND_MAP | KIND_SLICE | KIND_FUNC =>
        Returns (None, typ, mkNilExpr (Some typ))
    | _ =>
        Returns (Some ("Type " ++ StringOf M typ ++ " can't be set to nil"),
                 typ, mkNilExpr None)
    end.
Proof.
  intros Hk; unfold NegotiateExprType.
  cbn [TypeOf GuessType ApplyType NilExprE bind firstKnown KnownOf nonilTyp
       NilExpr_typ].
  rewrite Hk; cbn [bind Known negb].
  unfold IsInterface, NilExpr_ApplyType.
  destruct (KindOf (RootType typ)); reflexivity.
Qed.

(** ** Statements *)

(** X20: a statement that is a bare literal gives the literal its
    default type ([int] for an integer, [float64] for a float, ...), and
    negotiating the statement once more changes nothing. *)
Theorem literal_statement_defaults (tok : LitToken) :
  IsTypeNumeric M (SimpleType SIMPLE_TYPE_INT) = true ->
  IsTypeNumeric M (SimpleType SIMPLE_TYPE_RUNE) = true ->
  IsTypeFloatKind M (SimpleType SIMPLE_TYPE_FLOAT64) = true ->
  IsTypeComplexType M (SimpleType SIMPLE_TYPE_COMPLEX128) = true ->
  tok <> TOKEN_OTHER ->
  exists ty,
    BasicLit_GuessType (mkBasicLit tok None) = (true, Some ty)
    /\ ExprStmt_NegotiateTypes M (BasicLitExpr M) (mkBasicLit tok None) =
         Returns (None, mkBasicLit tok (Some ty))
    /\ ExprStmt_NegotiateTypes M (BasicLitExpr M) (mkBasicLit tok (Some ty)) =
         Returns (None, mkBasicLit tok (Some ty)).
Proof.
  intros H1 H2 H3 H4 Ht.
  destruct tok; try contradiction; eexists; (split; [reflexivity|]);
    unfold ExprStmt_NegotiateTypes, NegotiateExprType, IsAssignable,
      BasicLit_ApplyType; cbn;
    rewrite ?H1, ?H2, ?H3, ?H4, ?String.eqb_refl; cbn;
    rewrite ?H1, ?H2, ?H3, ?H4, ?String.eqb_refl; cbn;
    split; reflexivity.
Qed.

(** X21: a block is checked statement by statement and the first error
    ends it: the statements after the failing one are not negotiated,
    and the tree is left as the failing statement left it. *)
Theorem first_error_ends_the_block (S : Type) (before after : list (Stmt S))
    (bad : Stmt S) (s s1 s2 : S) (e : string) :
  CheckTypes before s = Returns (None, s1) ->
  bad s1 = Returns (Some e, s2) ->
  CheckTypes (before ++ bad :: after) s = Returns (Some e, s2).
Proof.
  intros Hb He; revert s Hb.
  induction before as [|st before IH]; intros s Hb; cbn [app CheckTypes] in *.
  - inversion Hb; subst; rewrite He; reflexivity.
  - destruct (st s) as [[err s']|]; cbn [bind fst snd] in *; [|discriminate Hb].
    destruct err; [discriminate Hb|]. apply IH; assumption.
Qed.

(** ** Interfaces *)

(** X22: every type is assignable to a type whose root is the interface
    without methods. *)
Theorem anything_fits_the_empty_interface (to what : Ty) :
  RootType to = IfaceType [] ->
  IsAssignable M to what = Returns true.
Proof.
  intros H; unfold IsAssignable, IsInterface, Implements; rewrite H; cbn.
  destruct what; reflexivity.
Qed.

Lemma methodFound_other_receiver (ptr : bool)
    (ms : list (string * FuncDecl)) (imet : FuncDecl) :
  Forall (fun m => FuncDecl_PtrReceiver (snd m) = negb ptr) ms ->
  methodFound M ptr ms imet = false.
Proof.
  unfold methodFound; induction 1 as [|m ms Hm _ IH]; cbn [map existsb];
    [reflexivity|].
  rewrite IH, Hm. destruct ptr; cbn; rewrite andb_false_r; reflexivity.
Qed.

(** X23: the receivers must be of the kind of the value: a named type
    all of whose methods have pointer receivers implements no interface
    that has a method, and neither does a pointer to a named type all of
    whose methods have value receivers. *)
Theorem receiver_kind_must_match (iface : Ty)
    (ims : list (string * FuncDecl)) (D : TypeDecl) (ptr : bool) :
  RootType iface = IfaceType ims ->
  ims <> [] ->
  Forall (fun m => FuncDecl_PtrReceiver (snd m) = negb ptr) (TypeDecl_Methods D) ->
  Implements M iface (if ptr then PointerType (CustomType D) else CustomType D) =
    Returns false.
Proof.
  intros Hr Hne Hm; unfold Implements; rewrite Hr.
  destruct ims as [|[n imet] ims]; [contradiction|].
  destruct ptr; cbn [map forallb snd];
    rewrite (methodFound_other_receiver _ _ imet Hm); reflexivity.
Qed.

(** ** Comparisons *)

(** X24: comparability does not depend on the order of the two types. *)
Theorem AreComparable_symmetric (t1 t2 : Ty) :
  AreComparable M t1 t2 = AreComparable M t2 t1.
Proof.
  unfold AreComparable.
  destruct (Kind_eqb (KindOf t1) KIND_UNKNOWN),
           (Kind_eqb (KindOf t2) KIND_UNKNOWN); cbn [orb]; try reflexivity.
  destruct (IsAssignable_returns M t1 t2) as [a ->],
           (IsAssignable_returns M t2 t1) as [b ->]; cbn [bind].
  destruct a, b; reflexivity.
Qed.

(** X25: [AreOrdered] answers true only for two simple types of one id
    that is [int] or [string]. *)
Theorem ordered_types_are_int_or_string (t1 t2 : Ty) :
  AreOrdered M t1 t2 = Returns true ->
  exists id,
    t1 = SimpleType id /\ t2 = SimpleType id
    /\ (id = SIMPLE_TYPE_INT \/ id = SIMPLE_TYPE_STRING).
Proof.
  unfold AreOrdered.
  destruct (AreComparable_returns M t1 t2) as [c ->]; cbn [bind].
  destruct c; cbn [negb]; [|discriminate].
  destruct t1 as [|id1| | | | | | | | | |]; try discriminate;
    destruct t2 as [|id2| | | | | | | | | |]; try discriminate.
  destruct (SimpleID_eqb id1 id2) eqn:E; cbn [negb]; [|discriminate].
  apply SimpleID_eqb_eq in E; subst id2.
  destruct id1; intros H; try discriminate H; eauto.
Qed.

(** ** Selectors *)

(** X26: a selector looks through one pointer: on a pointer to a type
    that is no pointer itself it has the type it has on the pointee. *)
Theorem selector_looks_through_a_pointer (S : Type) (p v : TypedExpr S)
    (s : S) (t : Ty) (name : string) :
  KindOf t <> KIND_POINTER ->
  TypeOf p s = Returns (Some (PointerType t)) ->
  TypeOf v s = Returns (Some t) ->
  DotSelector_Type p name s = DotSelector_Type v name s.
Proof.
  intros Hk Hp Hv; unfold DotSelector_Type; rewrite Hp, Hv; cbn [bind].
  destruct t; try reflexivity. exfalso; apply Hk; reflexivity.
Qed.

(** ** Unpacking a tuple *)

Definition known_slot (t : option Ty) : Prop :=
  exists ty, t = Some ty /\ Known ty = true.

Lemma unpackLoop_ok : forall lhsTypes members slots,
  unpackLoop M lhsTypes members = Returns (None, slots) ->
  length slots = length lhsTypes
  /\ length lhsTypes <= length members
  /\ Forall known_slot slots.
Proof.
  induction lhsTypes as [|t ts IH]; intros members slots H; cbn [unpackLoop] in H.
  - inversion H; subst; cbn; repeat split; [lia | constructor].
  - destruct members as [|m ms]; [discriminate H|].
    cbn [firstKnown] in H.
    destruct t as [t0|]; cbn [KnownOf bind] in H; [|discriminate H].
    assert (Hstep : forall slot r,
              known_slot slot ->
              unpackLoop M ts ms = Returns r ->
              Returns (fst r, slot :: snd r) = Returns (None, slots) ->
              length slots = length (Some t0 :: ts)
              /\ length (Some t0 :: ts) <= length (m :: ms)
              /\ Forall known_slot slots).
    { intros slot [err rest] Hs Hr E; cbn [fst snd] in E.
      inversion E; subst.
      destruct (IH _ _ Hr) as (L1 & L2 & L3).
      cbn [length]; repeat split; [lia | lia | constructor; assumption]. }
    rewrite (Known_kind t0) in H.
    destruct (Kind_eqb (KindOf t0) KIND_UNKNOWN) eqn:Hu; cbn [negb bind] in H.
    + destruct (Known m) eqn:Hm; cbn [bind negb] in H; [|discriminate H].
      destruct (unpackLoop M ts ms) as [r|] eqn:Hr; cbn [bind] in H;
        [|discriminate H].
      apply (Hstep (Some m) r); [exists m; auto | reflexivity | exact H].
    + destruct (Known m) eqn:Hm; cbn [negb] in H; [|discriminate H].
      destruct (IsAssignable M t0 m) as [a|]; cbn [bind] in H; [|discriminate H].
      destruct a; cbn [negb] in H; [|discriminate H].
      destruct (unpackLoop M ts ms) as [r|] eqn:Hr; cbn [bind] in H;
        [|discriminate H].
      apply (Hstep (Some t0) r); [|reflexivity | exact H].
      exists t0; split; [reflexivity|]. rewrite Known_kind, Hu; reflexivity.
Qed.

(** X27: when unpacking succeeds, every target has a known type
    afterwards and there were no more targets than values: at most two
    when the right side is no function call, the value and a [bool]. *)
Theorem unpacked_targets_are_known (S : Type) (isFuncCall onlyFuncCalls : bool)
    (lhsTypes slots : list (option Ty)) (rhs : TypedExpr S) (s s' : S) :
  NegotiateTupleUnpackAssign M isFuncCall onlyFuncCalls lhsTypes rhs s =
    Returns (None, slots, s') ->
  length slots = length lhsTypes
  /\ Forall known_slot slots
  /\ (isFuncCall = false -> length lhsTypes <= 2).
Proof.
  unfold NegotiateTupleUnpackAssign; intros H.
  destruct isFuncCall.
  - destruct (TypeOf rhs s) as [[rt|]|]; cbn [bind] in H; try discriminate H.
    destruct rt; try discriminate H.
    destruct (unpackLoop M lhsTypes Members) as [[err sl]|] eqn:Hu;
      cbn [bind fst snd] in H; [|discriminate H].
    inversion H; subst.
    destruct (unpackLoop_ok _ _ _ Hu) as (L1 & _ & L3).
    repeat split; [assumption | assumption | discriminate].
  - destruct onlyFuncCalls; [discriminate H|].
    destruct (TypeOf rhs s) as [lt|]; cbn [bind] in H; [|discriminate H].
    destruct (KnownOf lt) as [k|]; cbn [bind] in H; [|discriminate H].
    destruct (if negb k then GuessType rhs s else Returns (true, lt, s))
      as [[[ok leftTyp] s1]|]; cbn [bind] in H; [|discriminate H].
    destruct ok; cbn [negb] in H; [|discriminate H].
    destruct (KnownOf leftTyp) as [k'|]; cbn [bind] in H; [|discriminate H].
    destruct k'; cbn [negb] in H; [|discriminate H].
    destruct (ApplyType rhs _ s1) as [[err s2]|]; cbn [bind fst snd] in H;
      [|discriminate H].
    destruct err; [discriminate H|].
    destruct (unpackLoop M lhsTypes _) as [[err sl]|] eqn:Hu;
      cbn [bind fst snd] in H; [|discriminate H].
    inversion H; subst.
    destruct (unpackLoop_ok _ _ _ Hu) as (L1 & L2 & L3).
    repeat split; [assumption | assumption | intros _; exact L2].
Qed.

(** X28: with a right side that is no function call there are two
    values to unpack; a third target makes the loop read past the end of
    the tuple, and the call panics instead of returning an error. *)
Theorem third_target_panics (S : Type) (rhs : TypedExpr S) (s s1 : S)
    (T : Ty) (t3 : option Ty) (ts : list (option Ty)) :
  TypeOf rhs s = Returns (Some T) ->
  Known T = true ->
  ApplyType rhs (TupleType [T; SimpleType SIMPLE_TYPE_BOOL]) s =
    Returns (None, s1) ->
  NegotiateTupleUnpackAssign M false false
    (Some UnknownType :: Some UnknownType :: t3 :: ts) rhs s =
    Panics "index out of range".
Proof.
  intros HT Hk Ha; unfold NegotiateTupleUnpackAssign.
  rewrite HT; cbn [bind KnownOf]; rewrite Hk; cbn [negb bind KnownOf].
  rewrite Hk; cbn [negb bind nonilTyp]; rewrite Ha; cbn [bind fst snd].
  cbn [unpackLoop firstKnown KnownOf bind Known]; rewrite Hk; cbn.
  reflexivity.
Qed.

End Facts.

(** ** Instances *)

(** [type Celsius float64], a variable of that type and one of type
    [float64]. *)
Definition float64Type : Ty := SimpleType SIMPLE_TYPE_FLOAT64.
Definition Celsius : Ty := CustomType (mkTypeDecl "Celsius" float64Type []).
Definition celsiusVar : Ident := mkIdent "c" (Some (OBJECT_VAR (Some Celsius))).
Definition floatVar : Ident := mkIdent "f" (Some (OBJECT_VAR (Some float64Type))).

Lemma converts_to_its_own_type_witness :
  IsConvertable specModel (IdentExpr specModel) Stringer stringerVar =
    Returns true.
Proof.
  apply (converts_to_its_own_type specModel Ident (IdentExpr specModel)
           stringerVar Stringer).
  reflexivity.
Defined.

Lemma converts_between_name_and_declared_type_witness :
  IsConvertable specModel (onFst Ident (IdentExpr specModel)) float64Type
    (celsiusVar, floatVar) = Returns true
  /\ IsConvertable specModel (onSnd Ident (IdentExpr specModel)) Celsius
       (celsiusVar, floatVar) = Returns true.
Proof.
  apply (converts_between_name_and_declared_type specModel (Ident * Ident)
           (onFst Ident (IdentExpr specModel))
           (onSnd Ident (IdentExpr specModel))
           (celsiusVar, floatVar) "Celsius" float64Type []).
  - discriminate.
  - reflexivity.
  - reflexivity.
Defined.

Lemma nil_takes_declared_type_witness :
  NegotiateExprType specModel (NilExprE specModel)
    (Some (ChanType intType CHAN_DIR_BI)) (mkNilExpr None) =
  Returns (Some "Type chan int can't be set to nil",
           ChanType intType CHAN_DIR_BI, mkNilExpr None).
Proof.
  apply (nil_takes_declared_type specModel (ChanType intType CHAN_DIR_BI)).
  reflexivity.
Defined.

Lemma literal_statement_defaults_witness :
  exists ty,
    BasicLit_GuessType (mkBasicLit TOKEN_FLOAT None) = (true, Some ty)
    /\ ExprStmt_NegotiateTypes specModel (BasicLitExpr specModel)
         (mkBasicLit TOKEN_FLOAT None) =
         Returns (None, mkBasicLit TOKEN_FLOAT (Some ty))
    /\ ExprStmt_NegotiateTypes specModel (BasicLitExpr specModel)
         (mkBasicLit TOKEN_FLOAT (Some ty)) =
         Returns (None, mkBasicLit TOKEN_FLOAT (Some ty)).
Proof.
  apply (literal_statement_defaults specModel TOKEN_FLOAT);
    try reflexivity; discriminate.
Defined.

(** The block of the two statements [1] and a literal of no known kind. *)
Definition firstLit : Stmt (BasicLit * BasicLit) :=
  ExprStmt_NegotiateTypes specModel (onFst BasicLit (BasicLitExpr specModel)).
Definition secondLit : Stmt (BasicLit * BasicLit) :=
  ExprStmt_NegotiateTypes specModel (onSnd BasicLit (BasicLitExpr specModel)).

Lemma first_error_ends_the_block_witness :
  CheckTypes ([firstLit] ++ secondLit :: [firstLit])
    (mkBasicLit TOKEN_INT None, mkBasicLit TOKEN_OTHER None) =
  Returns (Some "Too little information to infer types",
           (mkBasicLit TOKEN_INT (Some intType), mkBasicLit TOKEN_OTHER None)).
Proof.
  apply (first_error_ends_the_block (BasicLit * BasicLit) [firstLit] [firstLit]
           secondLit
           (mkBasicLit TOKEN_INT None, mkBasicLit TOKEN_OTHER None)
           (mkBasicLit TOKEN_INT (Some intType), mkBasicLit TOKEN_OTHER None)
           (mkBasicLit TOKEN_INT (Some intType), mkBasicLit TOKEN_OTHER None)
           "Too little information to infer types").
  - reflexivity.
  - reflexivity.
Defined.

(** [type Any interface {}]. *)
Definition Any : Ty := CustomType (mkTypeDecl "Any" (IfaceType []) []).

Lemma anything_fits_the_empty_interface_witness :
  IsAssignable specModel Any (SliceType intType) = Returns true.
Proof.
  apply (anything_fits_the_empty_interface specModel Any (SliceType intType)).
  reflexivity.
Defined.

(** [type Name string] with [func (n *Name) String() string]. *)
Definition NameDecl : TypeDecl :=
  mkTypeDecl "Name" stringType
    [("String", mkFuncDecl "String" (FuncType [] [stringType]) true)].

Lemma receiver_kind_must_match_witness :
  Implements specModel Stringer (CustomType NameDecl) = Returns false.
Proof.
  apply (receiver_kind_must_match specModel Stringer
           [("String", StringMethod)] NameDecl false).
  - reflexivity.
  - discriminate.
  - repeat constructor.
Defined.

Lemma ordered_types_are_int_or_string_witness :
  exists id,
    intType = SimpleType id /\ intType = SimpleType id
    /\ (id = SIMPLE_TYPE_INT \/ id = SIMPLE_TYPE_STRING).
Proof.
  apply (ordered_types_are_int_or_string specModel intType intType).
  reflexivity.
Defined.

(** [struct { x int }], a variable of that type and a pointer to one. *)
Definition pointType : Ty := StructType [("x", intType)] [].
Definition pointVar : Ident := mkIdent "v" (Some (OBJECT_VAR (Some pointType))).
Definition pointPtr : Ident :=
  mkIdent "p" (Some (OBJECT_VAR (Some (PointerType pointType)))).

Lemma selector_looks_through_a_pointer_witness :
  DotSelector_Type (onFst Ident (IdentExpr specModel)) "x" (pointPtr, pointVar) =
  DotSelector_Type (onSnd Ident (IdentExpr specModel)) "x" (pointPtr, pointVar).
Proof.
  apply (selector_looks_through_a_pointer (Ident * Ident)
           (onFst Ident (IdentExpr specModel))
           (onSnd Ident (IdentExpr specModel))
           (pointPtr, pointVar) pointType "x").
  - discriminate.
  - reflexivity.
  - reflexivity.
Defined.

(** An expression of type [int] that takes every type applied to it, as
    the index expression of a map of [int] takes the pair of [int] and
    [bool]. *)
Definition intOfAnyShape : TypedExpr unit := {|
  TypeOf _ := Returns (Some intType);
  ApplyType _ s := Returns (None, s);
  GuessType s := Returns (false, None, s)
|}.

Lemma unpacked_targets_are_known_witness :
  length [Some intType; Some (SimpleType SIMPLE_TYPE_BOOL)] =
    length [Some UnknownType; Some UnknownType]
  /\ Forall known_slot [Some intType; Some (SimpleType SIMPLE_TYPE_BOOL)]
  /\ (false = false -> length [Some UnknownType; Some UnknownType] <= 2).
Proof.
  apply (unpacked_targets_are_known specModel unit false false
           [Some UnknownType; Some UnknownType]
           [Some intType; Some (SimpleType SIMPLE_TYPE_BOOL)]
           intOfAnyShape tt tt).
  reflexivity.
Defined.

Lemma third_target_panics_witness :
  NegotiateTupleUnpackAssign specModel false false
    [Some UnknownType; Some UnknownType; Some UnknownType] intOfAnyShape tt =
    Panics "index out of range".
Proof.
  apply (third_target_panics specModel unit intOfAnyShape tt tt intType
           (Some UnknownType) []).
  - reflexivity.
  - reflexivity.
  - reflexivity.
Defined.

(** ** The send statement as the specification words it *)

(** The claim of C7 as it is written, on the types the two sides have:
    an error unless the root of the left type is CHAN, the error
    "Channel is receive-only" on a receive-only channel, an error when
    the right type is not assignable to the element type, success
    otherwise. *)
Definition send_as_written (M : TypeModel) : Prop :=
  forall (S : Type) (Lhs Rhs : TypedExpr S) (s : S) (lt rt : Ty),
    TypeOf Lhs s = Returns (Some lt) ->
    TypeOf Rhs s = Returns (Some rt) ->
    exists err s',
      SendStmt_NegotiateTypes M Lhs Rhs s = Returns (err, s')
      /\ (KindOf (RootType lt) <> KIND_CHAN -> err <> None)
      /\ (forall Of, RootType lt = ChanType Of CHAN_DIR_RECEIVE ->
          err = Some receiveOnly)
      /\ (forall Of Dir, RootType lt = ChanType Of Dir ->
          IsAssignable M Of rt = Returns false -> err <> None)
      /\ (forall Of Dir, RootType lt = ChanType Of Dir ->
          Dir <> CHAN_DIR_RECEIVE ->
          IsAssignable M Of rt = Returns true -> err = None).

(** [ch <- nil] with [ch] a receive-only channel of [int]: the right side
    does not negotiate, and its error is the one returned. *)
Example nil_sent_to_receive_only :
  SendStmt_NegotiateTypes specModel
    (onFst NilExpr (IdentExpr specModel)) (onSnd Ident (NilExprE specModel))
    (recvChan, mkNilExpr None) =
  Returns (Some "Too little information to infer types",
           (recvChan, mkNilExpr None)).
Proof. reflexivity. Qed.

(** The same on a channel of the empty interface that can be sent to,
    where the claim has the statement succeed. *)
Example nil_sent_to_any_channel :
  IsAssignable specModel (IfaceType []) UnknownType = Returns true
  /\ SendStmt_NegotiateTypes specModel
       (onFst NilExpr (IdentExpr specModel)) (onSnd Ident (NilExprE specModel))
       (mkIdent "ch" (Some (OBJECT_VAR (Some (ChanType (IfaceType []) CHAN_DIR_BI)))),
        mkNilExpr None) =
     Returns (Some "Too little information to infer types",
              (mkIdent "ch"
                 (Some (OBJECT_VAR (Some (ChanType (IfaceType []) CHAN_DIR_BI)))),
               mkNilExpr None)).
Proof. split; reflexivity. Qed.

(** C7 as it is written does not hold: on a receive-only channel the
    statement [ch <- nil] fails with the error of the negotiation of its
    right side, not with "Channel is receive-only". *)
Lemma send_is_not_as_written : ~ send_as_written specModel.
Proof.
  intros H.
  destruct (H (Ident * NilExpr)%type
              (onFst NilExpr (IdentExpr specModel))
              (onSnd Ident (NilExprE specModel))
              (recvChan, mkNilExpr None)
              (ChanType intType CHAN_DIR_RECEIVE) UnknownType
              eq_refl eq_refl)
    as (err & s' & E & _ & Hrecv & _).
  specialize (Hrecv intType eq_refl); subst err.
  vm_compute in E; discriminate E.
Qed.

End NegotiatorMore.
